(** * A basic shell with pipes and redirection: model of [main.c]

    The development follows the source file top-down:
    - [Tokenizer]: the [strtok] loop of [parse_cmd] with its growing
      argument array;
    - [Resolver]: [is_valid_redirection], [redirect_input],
      [redirect_output] and [find_pipe_idx] on the argument array;
    - [Orchestrator]: [execute_pipe], [execute_cmd] and [parse_cmd], run
      against an explicit description of what the operating system answers.

    C strings are Rocq strings (the bytes before the terminating NUL), a
    [char *] slot of the argument array is an [option string] with [None]
    for the null pointer, and [size_t] counters are natural numbers. *)

From Stdlib Require Import ZArith Ascii.
From stdpp Require Import base list strings.


(** ** Tokenizer *)

Module Tokenizer.

(** The delimiter set handed to [strtok]: space and newline. *)
Definition is_delim (c : ascii) : bool :=
  Ascii.eqb c " " || Ascii.eqb c "010".

(** [strtok] first skips the delimiters in front of the token. *)
Fixpoint skip_delims (s : string) : string :=
  match s with
  | String c r => if is_delim c then skip_delims r else s
  | EmptyString => EmptyString
  end.

(** Then it runs to the next delimiter, overwrites it with NUL and keeps a
    pointer to the byte after it; at the end of the string the saved pointer
    stays on the terminator.  The result is the token and the saved rest. *)
Fixpoint scan_token (s : string) : string * string :=
  match s with
  | String c r =>
      if is_delim c then (EmptyString, r)
      else let '(tok, rest) := scan_token r in (String c tok, rest)
  | EmptyString => (EmptyString, EmptyString)
  end.

(** One call of [strtok(_, " \n")] on the saved rest: [None] is the null
    pointer returned when only delimiters are left. *)
Definition strtok (s : string) : option (string * string) :=
  match skip_delims s with
  | EmptyString => None
  | String c r => Some (scan_token (String c r))
  end.

(** The argument array while [parse_cmd] fills it: the tokens stored so far
    in slots [0 .. num_args - 1] and the number of slots allocated. *)
Record arg_buf := ArgBuf {
  buf_args : list string;
  buf_capacity : nat
}.

Definition buf_num_args (b : arg_buf) : nat := length (buf_args b).

(** Body of the [while] loop: double the capacity when [num_args >=
    capacity], then store the copy of the token at slot [num_args]. *)
Definition store_token (b : arg_buf) (token : string) : arg_buf :=
  let capacity :=
    if buf_capacity b <=? buf_num_args b then buf_capacity b * 2
    else buf_capacity b in
  ArgBuf (buf_args b ++ [token]) capacity.

Fixpoint parse_loop (fuel : nat) (rest : string) (b : arg_buf) : arg_buf :=
  match fuel with
  | 0 => b
  | S fuel' =>
      match strtok rest with
      | None => b
      | Some (token, rest') => parse_loop fuel' rest' (store_token b token)
      end
  end.

(** [parse_cmd] up to the end of its loop.  Every token takes at least one
    byte of the line, so the length of the line bounds the iterations. *)
Definition tokenize (input : string) : arg_buf :=
  parse_loop (S (String.length input)) input (ArgBuf [] 10).

(** [args[num_args] = NULL] after the loop writes slot [num_args]; the
    allocation holds slots [0 .. capacity - 1]. *)
Definition sentinel_slot (b : arg_buf) : nat := buf_num_args b.

Definition sentinel_in_bounds (b : arg_buf) : bool :=
  sentinel_slot b <? buf_capacity b.

(** The specification's tokenizer: split on runs of space and newline
    characters.  [cur] is the token being read. *)
Fixpoint split_ws_from (cur : string) (s : string) : list string :=
  match s with
  | EmptyString =>
      match cur with EmptyString => [] | _ => [cur] end
  | String c r =>
      if is_delim c then
        match cur with
        | EmptyString => split_ws_from EmptyString r
        | _ => cur :: split_ws_from EmptyString r
        end
      else split_ws_from (cur +:+ String c EmptyString) r
  end.

Definition split_ws (s : string) : list string := split_ws_from EmptyString s.

Fixpoint all_delims (s : string) : bool :=
  match s with
  | EmptyString => true
  | String c r => is_delim c && all_delims r
  end.

End Tokenizer.

(** ** Resolver *)

Module Resolver.

(** A slot of the argument array: [Some s] points to the string [s], [None]
    is the null pointer. *)
Abbreviation slot := (option string).

(** The slots [args[0 .. num_args]] as [parse_cmd] leaves them: the tokens
    followed by the sentinel. *)
Definition arr (ts : list string) : list slot := (Some <$> ts) ++ [None].

(** What [execvp] sees of an argument array: the strings in front of the
    first null slot. *)
Fixpoint argv_view (args : list slot) : list string :=
  match args with
  | Some s :: rest => s :: argv_view rest
  | _ => []
  end.

(** [s[0]]: the first byte of a C string, the terminator when it is empty. *)
Definition first_byte (s : string) : ascii :=
  match s with
  | String c _ => c
  | EmptyString => Ascii.zero
  end.

(** [is_valid_redirection]; [None] when the read of [args[i + 1][0]] is not
    a read of a string (null slot, or a slot outside the array). *)
Definition is_valid_redirection (i num_args : nat) (args : list slot)
  : option bool :=
  if i + 1 <? num_args then
    match args !! (i + 1) with
    | Some (Some next) =>
        Some (negb (Ascii.eqb (first_byte next) "<")
              && negb (Ascii.eqb (first_byte next) ">"))
    | _ => None
    end
  else Some false.

(** [for (j = i; j < *num_args - 2; j++) args[j] = args[j + 2];] with
    [fuel] iterations left; [None] when [args[j + 2]] lies outside the
    array. *)
Fixpoint shift_loop (fuel j : nat) (args : list slot) : option (list slot) :=
  match fuel with
  | 0 => Some args
  | S fuel' =>
      match args !! (j + 2) with
      | Some v => shift_loop fuel' (S j) (<[j := v]> args)
      | None => None
      end
  end.

Inductive redirect_result :=
  | NotFound
    (** the scan reached [num_args]: [return false] *)
  | SyntaxError (near : slot)
    (** the diagnostic was printed with [args[i + 1]]: [return false] *)
  | Redirected (file : string) (num_args : nat) (args : list slot)
    (** [return true], with the file name, the new count and the array *)
  | BadRead.
    (** a null slot or a slot outside the array was read as a string *)

(** The scan shared by [redirect_input] and [redirect_output], which differ
    in the symbol only. *)
Fixpoint redirect_loop (sym : string) (fuel i num_args : nat)
    (args : list slot) : redirect_result :=
  match fuel with
  | 0 => NotFound
  | S fuel' =>
      match args !! i with
      | Some (Some a) =>
          if String.eqb a sym then
            match is_valid_redirection i num_args args with
            | None => BadRead
            | Some false =>
                match args !! (i + 1) with
                | Some near => SyntaxError near
                | None => BadRead
                end
            | Some true =>
                match args !! (i + 1) with
                | Some (Some file) =>
                    match shift_loop (num_args - 2 - i) i args with
                    | Some args' =>
                        Redirected file (num_args - 2)
                          (<[num_args - 2 := None]> args')
                    | None => BadRead
                    end
                | _ => BadRead
                end
            end
          else redirect_loop sym fuel' (S i) num_args args
      | _ => BadRead
      end
  end.

Definition redirect_input (num_args : nat) (args : list slot)
  : redirect_result :=
  redirect_loop "<" num_args 0 num_args args.

Definition redirect_output (num_args : nat) (args : list slot)
  : redirect_result :=
  redirect_loop ">" num_args 0 num_args args.

(** [find_pipe_idx]: the index of the first ["|"] as an [int], [-1] when
    there is none; [None] when a slot below [num_args] is not a string.  The
    cast [(int)i] is the identity on the indices of a line. *)
Fixpoint find_pipe_loop (fuel i : nat) (args : list slot) : option Z :=
  match fuel with
  | 0 => Some (-1)%Z
  | S fuel' =>
      match args !! i with
      | Some (Some a) =>
          if String.eqb a "|" then Some (Z.of_nat i)
          else find_pipe_loop fuel' (S i) args
      | _ => None
      end
  end.

Definition find_pipe_idx (num_args : nat) (args : list slot) : option Z :=
  find_pipe_loop num_args 0 args.

End Resolver.

(** ** Orchestrator *)

Module Orchestrator.
Import Tokenizer Resolver.

(** What a standard stream of the shell is bound to. *)
Inductive stream :=
  | Tty
  | File (path : string)
  | Closed.

Record streams := Streams {
  s_stdin : stream;
  s_stdout : stream
}.

Inductive std_stream := Stdin | Stdout.

Inductive fd := PipeRead | PipeWrite | StdinFd | StdoutFd.

(** What a forked child does before it replaces its image. *)
Inductive child_step :=
  | CClose (f : fd)
  | CDup2 (src dst : fd).

(** A forked child: the streams it inherits, its descriptor set-up, the
    call [execvp(file, argv)], and the [perror] text it prints before
    [exit(EXIT_FAILURE)] when [execvp] returns. *)
Record child := Child {
  c_streams : streams;
  c_setup : list child_step;
  c_file : slot;
  c_argv : list string;
  c_perror : string
}.

(** The calls the shell process itself makes, in order. *)
Inductive event :=
  | Diag (msg : string)
    (** [perror] or a fixed [fprintf(stderr, ...)] *)
  | SyntaxDiag (near : slot)
    (** [fprintf(stderr, "Syntax error near unexpected token `%s'\n", near)] *)
  | Freopen (path mode : string) (s : std_stream) (ok : bool)
  | Chdir (path : string) (ok : bool)
  | MkPipe (ok : bool)
  | Fork (c : child) (pid : Z)
  | Close (f : fd)
  | Waitpid (pid : Z).

(** The answers of the operating system during one line. *)
Record os := OS {
  can_read : string -> bool;       (** [fopen(path, "r")] succeeds *)
  can_write : string -> bool;      (** [fopen(path, "w")] succeeds *)
  can_chdir : string -> bool;      (** [chdir(path)] returns 0 *)
  pipe_ok : bool;                  (** [pipe(fd)] returns 0 *)
  fork_pid : nat -> option positive
    (** the child's pid returned to the parent by the n-th [fork] of the
        line, [None] when it fails *)
}.

(** The value [fork] returns in the parent. *)
Definition pid_of (r : option positive) : Z :=
  match r with
  | Some p => Zpos p
  | None => (-1)%Z
  end.

Inductive outcome :=
  | Returned               (** the function returns to its caller *)
  | Exited (status : Z)    (** [exit(status)] in the shell process *)
  | Crashed.
    (** the shell process gave a null slot to [strcmp] or [chdir], or a
        read left the array; a null pointer handed to the [%s] of the
        syntax diagnostic is recorded as [SyntaxDiag None] instead, and
        one handed to [execvp] as the child's [c_file] *)

Record run := Run {
  r_outcome : outcome;
  r_trace : list event;
  r_streams : streams;
  r_args : list slot
}.

(** [freopen(path, mode, stream)]: the stream is closed first and stays
    closed when the file cannot be opened. *)
Definition freopen (o : os) (path mode : string) (s : std_stream)
    (st : streams) : bool * streams :=
  let ok := match s with Stdin => can_read o path | Stdout => can_write o path end in
  let target := if ok then File path else Closed in
  (ok, match s with
       | Stdin => Streams target (s_stdout st)
       | Stdout => Streams (s_stdin st) target
       end).

(** [freopen("/dev/tty", mode, stream)] *)
Definition reopen_tty (o : os) (s : std_stream) (st : streams)
  : bool * streams :=
  let ok := match s with
            | Stdin => can_read o "/dev/tty"
            | Stdout => can_write o "/dev/tty"
            end in
  let target := if ok then Tty else Closed in
  (ok, match s with
       | Stdin => Streams target (s_stdout st)
       | Stdout => Streams (s_stdin st) target
       end).

(** [for (i = 0; i < count; i++) dst[i] = args[from + i];] *)
Fixpoint copy_loop (args : list slot) (from count : nat)
  : option (list slot) :=
  match count with
  | 0 => Some []
  | S count' =>
      match args !! from, copy_loop args (S from) count' with
      | Some v, Some rest => Some (v :: rest)
      | _, _ => None
      end
  end.

(** The two local arrays of [execute_pipe]. *)
Definition pipe_lhs (args : list slot) (pipe_idx : Z) : option (list slot) :=
  match copy_loop args 0 (Z.to_nat pipe_idx) with
  | Some l => Some (l ++ [None])
  | None => None
  end.

Definition pipe_rhs (args : list slot) (pipe_idx : Z) (num_args : nat)
  : option (list slot) :=
  match copy_loop args (Z.to_nat (pipe_idx + 1))
          (Z.to_nat (Z.of_nat num_args - pipe_idx - 1)) with
  | Some l => Some (l ++ [None])
  | None => None
  end.

Definition left_child (st : streams) (lhs : list slot) : child :=
  Child st [CClose PipeRead; CDup2 PipeWrite StdoutFd; CClose PipeWrite]
    (default None (lhs !! 0)) (argv_view lhs) "execvp lhs".

Definition right_child (st : streams) (rhs : list slot) : child :=
  Child st [CClose PipeWrite; CDup2 PipeRead StdinFd; CClose PipeRead]
    (default None (rhs !! 0)) (argv_view rhs) "execvp rhs".

Definition execute_pipe (o : os) (st : streams) (args : list slot)
    (pipe_idx : Z) (num_args : nat) : run :=
  match pipe_lhs args pipe_idx, pipe_rhs args pipe_idx num_args with
  | Some lhs, Some rhs =>
      if pipe_ok o then
        let pid1 := pid_of (fork_pid o 0) in
        let pid2 := pid_of (fork_pid o 1) in
        Run Returned
          [MkPipe true;
           Fork (left_child st lhs) pid1;
           Fork (right_child st rhs) pid2;
           Close PipeRead; Close PipeWrite;
           Waitpid pid1; Waitpid pid2]
          st args
      else Run (Exited 1) [MkPipe false; Diag "pipe"] st args
  | _, _ => Run Crashed [] st args
  end.

(** The end of [execute_cmd], from the [cd] test on: built-in or one
    child.  [tr] is what the shell has done so far on this line. *)
Definition run_command (o : os) (st : streams) (num_args : nat)
    (args : list slot) (tr : list event) : run :=
  match args !! 0 with
  | Some (Some cmd) =>
      if String.eqb cmd "cd" then
        if num_args <? 2 then
          Run Returned (tr ++ [Diag "cd: missing operand"]) st args
        else
          match args !! 1 with
          | Some (Some dir) =>
              if can_chdir o dir then
                Run Returned (tr ++ [Chdir dir true]) st args
              else
                Run Returned (tr ++ [Chdir dir false; Diag "cd"]) st args
          | _ => Run Crashed tr st args
          end
      else
        let c := Child st [] (Some cmd) (argv_view args) "execvp" in
        match fork_pid o 0 with
        | Some pid =>
            let '(ok_in, st1) := reopen_tty o Stdin st in
            let '(ok_out, st2) := reopen_tty o Stdout st1 in
            Run Returned
              (tr ++ [Fork c (Zpos pid); Waitpid (Zpos pid)]
                  ++ [Freopen "/dev/tty" "r" Stdin ok_in]
                  ++ (if ok_in then [] else [Diag "Restoring stdin failed"])
                  ++ [Freopen "/dev/tty" "w" Stdout ok_out]
                  ++ (if ok_out then [] else [Diag "Restoring stdout failed"]))
              st2 args
        | None =>
            Run (Exited 1) (tr ++ [Fork c (-1)%Z; Diag "fork"]) st args
        end
  | _ => Run Crashed tr st args
  end.

(** [execute_cmd] from the call of [redirect_output] on. *)
Definition resolve_output (o : os) (st : streams) (num_args : nat)
    (args : list slot) (tr : list event) : run :=
  match redirect_output num_args args with
  | Redirected output_file num_args' args' =>
      let '(ok, st') := freopen o output_file "w" Stdout st in
      if ok then
        run_command o st' num_args' args' (tr ++ [Freopen output_file "w" Stdout true])
      else
        Run Returned
          (tr ++ [Freopen output_file "w" Stdout false;
                  Diag "Failed to redirect output"])
          st' args'
  | NotFound => run_command o st num_args args tr
  | SyntaxError near => run_command o st num_args args (tr ++ [SyntaxDiag near])
  | BadRead => Run Crashed tr st args
  end.

(** [execute_cmd] from the call of [redirect_input] on. *)
Definition resolve_input (o : os) (st : streams) (num_args : nat)
    (args : list slot) : run :=
  match redirect_input num_args args with
  | Redirected input_file num_args' args' =>
      let '(ok, st') := freopen o input_file "r" Stdin st in
      if ok then
        resolve_output o st' num_args' args' [Freopen input_file "r" Stdin true]
      else
        Run Returned
          [Freopen input_file "r" Stdin false; Diag "Failed to redirect input"]
          st' args'
  | NotFound => resolve_output o st num_args args []
  | SyntaxError near => resolve_output o st num_args args [SyntaxDiag near]
  | BadRead => Run Crashed [] st args
  end.

Definition execute_cmd (o : os) (st : streams) (num_args : nat)
    (args : list slot) : run :=
  if num_args =? 0 then Run Returned [] st args
  else
    match find_pipe_idx num_args args with
    | Some pipe_idx =>
        if negb (pipe_idx =? -1)%Z then execute_pipe o st args pipe_idx num_args
        else resolve_input o st num_args args
    | None => Run Crashed [] st args
    end.

(** One line through [parse_cmd]: whether the sentinel store after the
    loop stayed inside the allocation, the run of [execute_cmd], and the
    pointers handed to [free] by the clean-up loop, which runs over the
    caller's own [num_args] on the array as [execute_cmd] left it. *)
Record line_result := LineResult {
  lr_sentinel_in_bounds : bool;
  lr_run : run;
  lr_freed : list slot
}.

Definition parse_cmd (o : os) (st : streams) (input : string) : line_result :=
  let b := tokenize input in
  let num_args := buf_num_args b in
  let r := execute_cmd o st num_args (arr (buf_args b)) in
  LineResult (sentinel_in_bounds b) r
    (match r_outcome r with
     | Returned => take num_args (r_args r)
     | _ => []
     end).

(** One pass through the loop of [main] after the prompt: leave on
    ["quit\n"], print the help text on ["help\n"], hand any other line to
    [parse_cmd]. *)
Inductive iteration :=
  | Quit
  | Help
  | Command (lr : line_result).

Definition newline : string := String "010" EmptyString.

Definition dispatch (o : os) (st : streams) (input : string) : iteration :=
  if String.prefix ("quit" +:+ newline) input then Quit
  else if String.prefix ("help" +:+ newline) input then Help
  else Command (parse_cmd o st input).

(** The loop of [main] over the lines [getline] delivers.  Each pass is
    recorded with the stream the prompt was printed to.  The streams of
    the shell carry over from one line to the next; the loop is left on
    [quit], when the shell process has exited or crashed, and (in this
    model) when the lines are used up.  [getcwd] is taken to succeed, and
    so is every call of [free] in the clean-up loop: what the C library
    does when it is handed one pointer twice (it may abort the process) is
    not part of the model, which records the calls in [lr_freed]. *)
Fixpoint main (o : os) (st : streams) (inputs : list string)
  : list (stream * iteration) :=
  match inputs with
  | [] => []
  | input :: rest =>
      match dispatch o st input with
      | Quit => [(s_stdout st, Quit)]
      | Help => (s_stdout st, Help) :: main o st rest
      | Command lr =>
          (s_stdout st, Command lr) ::
          match r_outcome (lr_run lr) with
          | Returned => main o (r_streams (lr_run lr)) rest
          | _ => []
          end
      end
  end.

(** The child programs of the [fork] calls of a trace, in order. *)
Definition forks (tr : list event) : list child :=
  omap (fun e => match e with Fork c _ => Some c | _ => None end) tr.

(** The events by which the shell resolves a redirection: a syntax
    diagnostic or a [freopen] of a standard stream. *)
Definition is_redirection_event (e : event) : bool :=
  match e with
  | SyntaxDiag _ | Freopen _ _ _ _ => true
  | _ => false
  end.

(** An operating system on which every call succeeds. *)
Definition os_ok : os :=
  OS (fun _ => true) (fun _ => true) (fun _ => true) true
     (fun n => Some (Pos.of_succ_nat (100 + n))).

(** An operating system on which no file can be opened for writing. *)
Definition os_read_only : os :=
  OS (fun _ => true) (fun _ => false) (fun _ => true) true
     (fun n => Some (Pos.of_succ_nat (100 + n))).

Definition on_tty : streams := Streams Tty Tty.

End Orchestrator.

(** ** The resolver read on token lists

    These definitions describe vectors at the level of the token list; the
    lemmas below relate the array code to them. *)

Module Plan.
Import Resolver.

(** Index of the first token equal to [sym]. *)
Fixpoint index_of (sym : string) (ts : list string) : option nat :=
  match ts with
  | [] => None
  | t :: rest =>
      if String.eqb t sym then Some 0 else S <$> index_of sym rest
  end.

(** The vector without the two tokens at [i] and [i + 1]. *)
Definition compacted (i : nat) (ts : list string) : list string :=
  take i ts ++ drop (i + 2) ts.

(** The token is one of the standalone redirection symbols. *)
Definition is_redirect_symbol (t : string) : bool :=
  String.eqb t "<" || String.eqb t ">".

(** The token begins with the byte ['<'] or ['>']. *)
Definition starts_with_redirect (t : string) : bool :=
  Ascii.eqb (first_byte t) "<" || Ascii.eqb (first_byte t) ">".

(** An argument array whose first slots hold the tokens [ts], followed by
    the sentinel and by whatever earlier compactions left behind. *)
Definition shaped (ts : list string) (tail : list slot) : list slot :=
  (Some <$> ts) ++ None :: tail.

(** What the scan for a symbol decides once its first occurrence is known
    to be at index [i] of the vector [ts]. *)
Definition redirect_at (i : nat) (ts : list string) (tail : list slot)
  : redirect_result :=
  match ts !! (i + 1) with
  | None => SyntaxError None
  | Some f =>
      if starts_with_redirect f then SyntaxError (Some f)
      else Redirected f (length ts - 2)
             (shaped (compacted i ts) (drop (length ts - 1) (shaped ts tail)))
  end.

Definition redirect_plan (sym : string) (ts : list string) (tail : list slot)
  : redirect_result :=
  match index_of sym ts with
  | None => NotFound
  | Some i => redirect_at i ts tail
  end.

End Plan.

(** ** Properties of a line *)

Module Properties.
Import Resolver Orchestrator Plan.

(** [sym] occurs in [ts] at index [i] and not before. *)
Definition first_at (sym : string) (i : nat) (ts : list string) : Prop :=
  ts !! i = Some sym ∧ ∀ j, j < i → ts !! j ≠ Some sym.

(** The result [file], [num_args'], [args'] of a successful scan for [sym]
    over the vector [ts], read on the array: the operand of the first
    [sym] is captured, the slots in front of the symbol keep their
    content, every later slot below the new count holds what was two slots
    to its right, the count went down by two, and the slot at the new
    count is null. *)
Definition extracted (sym : string) (ts : list string)
    (file : string) (num_args' : nat) (args' : list slot) : Prop :=
  ∃ i, first_at sym i ts ∧
       ts !! (i + 1) = Some file ∧
       num_args' + 2 = length ts ∧
       (∀ j, j < i → args' !! j = arr ts !! j) ∧
       (∀ j, i ≤ j < num_args' → args' !! j = arr ts !! (j + 2)) ∧
       args' !! num_args' = Some None ∧
       argv_view args' = compacted i ts.

(** The operand rule of a scan for [sym]: the scan succeeds with the file
    [f] exactly when [f] is the token after the first [sym] and [valid]
    accepts it. *)
Definition operand_rule (valid : string → bool)
    (scan : nat → list slot → redirect_result) (sym : string)
    (ts : list string) : Prop :=
  ∀ i f, first_at sym i ts →
    (∃ n a, scan (length ts) (arr ts) = Redirected f n a) ↔
    (ts !! (i + 1) = Some f ∧ valid f = true).

(** The child calls [execvp] with a null program name and an argument
    array whose slot 0 is the sentinel. *)
Definition null_command (c : child) : Prop :=
  c_file c = None ∧ c_argv c = [].

(** The line [ts] forks two children and the left (right) one runs a null
    command. *)
Definition left_is_null (o : os) (st : streams) (ts : list string) : Prop :=
  ∃ l r, forks (r_trace (execute_cmd o st (length ts) (arr ts))) = [l; r]
         ∧ null_command l.

Definition right_is_null (o : os) (st : streams) (ts : list string) : Prop :=
  ∃ l r, forks (r_trace (execute_cmd o st (length ts) (arr ts))) = [l; r]
         ∧ null_command r.

End Properties.

(** ** Further vocabulary for lines and scans *)

Module Text.
Import Tokenizer Resolver Plan Properties.

(** The string contains a delimiter of the tokenizer. *)
Fixpoint has_delim (s : string) : bool :=
  match s with
  | EmptyString => false
  | String c r => is_delim c || has_delim r
  end.

(** The string without its spaces and newlines. *)
Fixpoint strip_delims (s : string) : string :=
  match s with
  | EmptyString => EmptyString
  | String c r => if is_delim c then strip_delims r else String c (strip_delims r)
  end.

(** The tokens written one after the other. *)
Fixpoint concat_tokens (ts : list string) : string :=
  match ts with
  | [] => EmptyString
  | t :: rest => t +:+ concat_tokens rest
  end.

(** The tokens written as a line, a single space after each. *)
Fixpoint unwords (ts : list string) : string :=
  match ts with
  | [] => EmptyString
  | t :: rest => t +:+ String " " (unwords rest)
  end.

(** The three ways a scan for [sym] ends without a redirection: the symbol
    does not occur; its first occurrence is the last token, and the
    diagnostic is printed with the null sentinel; the token after its
    first occurrence begins with ['<'] or ['>'], and the diagnostic is
    printed with that token. *)
Definition scan_failures (scan : nat → list slot → redirect_result)
    (sym : string) (ts : list string) : Prop :=
  (scan (length ts) (arr ts) = NotFound ↔ sym ∉ ts) ∧
  (∀ i, first_at sym i ts → i + 1 = length ts →
        scan (length ts) (arr ts) = SyntaxError None) ∧
  (∀ i t, first_at sym i ts → ts !! (i + 1) = Some t →
          starts_with_redirect t = true →
          scan (length ts) (arr ts) = SyntaxError (Some t)).

(** What the loop of [parse_cmd] keeps true of the array: the capacity is
    ten doubled some number of times, the tokens fit, and the array was
    only grown when it was full. *)
Definition capacity_inv (b : arg_buf) : Prop :=
  ∃ k, buf_capacity b = 10 * 2 ^ k ∧
       buf_num_args b ≤ buf_capacity b ∧
       (k = 0 ∨ buf_capacity b < 2 * buf_num_args b).

(** An operating system on which [fork] fails. *)
Definition os_no_fork : Orchestrator.os :=
  Orchestrator.OS (fun _ => true) (fun _ => true) (fun _ => true) true
    (fun _ => None).

(** An operating system on which [pipe] fails. *)
Definition os_no_pipe : Orchestrator.os :=
  Orchestrator.OS (fun _ => true) (fun _ => true) (fun _ => true) false
    (fun n => Some (Pos.of_succ_nat (100 + n))).

(** What a scan for [sym] reads on an array that holds the tokens [ts]
    and their sentinel: its comparisons and copies stay on strings inside
    the array; the null sentinel reaches the [%s] of the diagnostic
    exactly when the first [sym] is the last token; and the array a
    successful scan returns again holds a token vector, of the returned
    count, followed by its sentinel. *)
Definition scan_reads (scan : nat → list slot → redirect_result)
    (sym : string) (ts : list string) (tail : list slot) : Prop :=
  scan (length ts) (shaped ts tail) ≠ BadRead ∧
  (scan (length ts) (shaped ts tail) = SyntaxError None ↔
   ∃ i, first_at sym i ts ∧ i + 1 = length ts) ∧
  (∀ f n a, scan (length ts) (shaped ts tail) = Redirected f n a →
            ∃ ts' tail', a = shaped ts' tail' ∧ n = length ts').

(** The line has none of the three metacharacter tokens. *)
Definition plain (ts : list string) : Prop :=
  ("|" ∉ ts) ∧ ("<" ∉ ts) ∧ (">" ∉ ts).

End Text.

(** * Facts *)

Import Tokenizer Resolver Orchestrator Plan Properties.

(** ** The tokenizer splits on runs of delimiters *)

Section TokenizerFacts.

Lemma append_cons (c : ascii) (s t : string) :
  String c s +:+ t = String c (s +:+ t).
Proof. reflexivity. Qed.

Lemma append_empty_r (s : string) : s +:+ EmptyString = s.
Proof.
  induction s as [|c s IH]; [done|]. by rewrite append_cons, IH.
Qed.

Lemma append_snoc (s t : string) (c : ascii) :
  (s +:+ String c EmptyString) +:+ t = s +:+ String c t.
Proof.
  induction s as [|d s IH]; [done|]. by rewrite !append_cons, IH.
Qed.

Lemma append_cons_nonempty (s t : string) (c : ascii) :
  s +:+ String c t ≠ EmptyString.
Proof. by destruct s. Qed.

(** Leading delimiters do not change the split. *)
Lemma split_skip_delims (s : string) :
  split_ws_from EmptyString s = split_ws_from EmptyString (skip_delims s).
Proof.
  induction s as [|c s IH]; simpl; [done|].
  destruct (is_delim c) eqn:Hc; [done|].
  simpl. by rewrite Hc.
Qed.

Lemma skip_delims_length (s : string) :
  String.length (skip_delims s) ≤ String.length s.
Proof.
  induction s as [|c s IH]; simpl; [lia|].
  destruct (is_delim c); simpl; lia.
Qed.

Lemma skip_delims_head (s r : string) (c : ascii) :
  skip_delims s = String c r → is_delim c = false.
Proof.
  induction s as [|d s IH]; simpl; [done|].
  destruct (is_delim d) eqn:Hd; [exact IH|]. by intros [= <- <-].
Qed.

(** One token read by [scan_token] is the next element of the split. *)
Lemma split_scan_token (s cur tok rest : string) :
  scan_token s = (tok, rest) →
  cur +:+ tok ≠ EmptyString →
  split_ws_from cur s = (cur +:+ tok) :: split_ws_from EmptyString rest.
Proof.
  revert cur tok rest.
  induction s as [|c s IH]; intros cur tok rest Hscan Hne; simpl in *.
  - injection Hscan as <- <-. rewrite append_empty_r in *.
    by destruct cur.
  - destruct (is_delim c) eqn:Hc.
    + injection Hscan as <- <-. rewrite append_empty_r in *.
      by destruct cur.
    + destruct (scan_token s) as [tok' rest'] eqn:Hs.
      injection Hscan as <- <-.
      rewrite (IH _ tok' rest' eq_refl); rewrite append_snoc; [done|].
      apply append_cons_nonempty.
Qed.

Lemma scan_token_length (s tok rest : string) :
  scan_token s = (tok, rest) → String.length rest ≤ String.length s - 1.
Proof.
  revert tok rest.
  induction s as [|c s IH]; intros tok rest Hscan; simpl in *.
  - injection Hscan as <- <-. simpl. lia.
  - destruct (is_delim c).
    + injection Hscan as <- <-. lia.
    + destruct (scan_token s) as [tok' rest'] eqn:Hs.
      injection Hscan as <- <-.
      specialize (IH _ _ eq_refl). lia.
Qed.

(** What one call of [strtok] means for the split. *)
Lemma strtok_None (s : string) :
  strtok s = None → split_ws s = [].
Proof.
  unfold strtok, split_ws. rewrite split_skip_delims.
  by destruct (skip_delims s).
Qed.

Lemma strtok_Some (s tok rest : string) :
  strtok s = Some (tok, rest) →
  split_ws s = tok :: split_ws rest ∧ String.length rest < String.length s.
Proof.
  unfold strtok, split_ws. rewrite split_skip_delims.
  pose proof (skip_delims_length s) as Hlen.
  destruct (skip_delims s) as [|c r] eqn:Hskip; [done|].
  intros Hsome.
  assert (scan_token (String c r) = (tok, rest)) as Hscan by congruence.
  clear Hsome. split.
  - apply (split_scan_token _ EmptyString); [done|].
    simpl in Hscan. rewrite (skip_delims_head _ _ _ Hskip) in Hscan.
    destruct (scan_token r). by injection Hscan as <- <-.
  - apply scan_token_length in Hscan. simpl in *. lia.
Qed.

(** With enough fuel the loop stores the tokens of the split one by one. *)
Lemma parse_loop_fold (fuel : nat) (s : string) (b : arg_buf) :
  String.length s < fuel →
  parse_loop fuel s b = foldl store_token b (split_ws s).
Proof.
  revert s b. induction fuel as [|fuel IH]; intros s b Hlt; [lia|].
  simpl. destruct (strtok s) as [[tok rest]|] eqn:Htok.
  - apply strtok_Some in Htok as [-> Hlen]. by rewrite IH by lia.
  - by apply strtok_None in Htok as ->.
Qed.

Lemma tokenize_fold (input : string) :
  tokenize input = foldl store_token (ArgBuf [] 10) (split_ws input).
Proof. unfold tokenize. by rewrite parse_loop_fold by lia. Qed.

Lemma foldl_store_args (ts : list string) (b : arg_buf) :
  buf_args (foldl store_token b ts) = buf_args b ++ ts.
Proof.
  revert b. induction ts as [|t ts IH]; intros b; simpl.
  - by rewrite app_nil_r.
  - rewrite IH. simpl. by rewrite <- app_assoc.
Qed.

Lemma tokenize_split (input : string) :
  buf_args (tokenize input) = split_ws input.
Proof. by rewrite tokenize_fold, foldl_store_args. Qed.

(** The tokens of a split are never empty. *)
Lemma split_ws_from_nonempty (cur s : string) :
  Forall (λ t, t ≠ EmptyString) (split_ws_from cur s).
Proof.
  revert cur. induction s as [|c s IH]; intros cur; simpl.
  - destruct cur; by repeat constructor.
  - destruct (is_delim c); [|apply IH].
    destruct cur; [apply IH|]. constructor; [done | apply IH].
Qed.

Lemma tokenize_nonempty (input : string) :
  Forall (λ t, t ≠ EmptyString) (buf_args (tokenize input)).
Proof. rewrite tokenize_split. apply split_ws_from_nonempty. Qed.

Lemma all_delims_split (s : string) :
  all_delims s = true → split_ws s = [].
Proof.
  unfold split_ws. induction s as [|c s IH]; simpl; [done|].
  destruct (is_delim c); [exact IH | done].
Qed.

End TokenizerFacts.

(** ** The array code against the token list *)

Section ResolverFacts.

Lemma arr_shaped (ts : list string) : arr ts = shaped ts [].
Proof. reflexivity. Qed.

Lemma shaped_length (ts : list string) (tail : list slot) :
  length (shaped ts tail) = S (length ts + length tail).
Proof. unfold shaped. rewrite length_app, length_fmap. simpl. lia. Qed.

Lemma shaped_lookup_lt (ts : list string) (tail : list slot) (i : nat) (t : string) :
  ts !! i = Some t → shaped ts tail !! i = Some (Some t).
Proof.
  intros Hi. unfold shaped. apply lookup_app_l_Some.
  by rewrite list_lookup_fmap, Hi.
Qed.

Lemma shaped_lookup_sentinel (ts : list string) (tail : list slot) :
  shaped ts tail !! length ts = Some None.
Proof.
  unfold shaped. rewrite lookup_app_r; rewrite length_fmap; [|lia].
  by rewrite Nat.sub_diag.
Qed.

Lemma argv_view_shaped (ts : list string) (tail : list slot) :
  argv_view (shaped ts tail) = ts.
Proof. induction ts as [|t ts IH]; simpl; [done | by f_equal]. Qed.

Lemma take_shaped (ts : list string) (tail : list slot) (n : nat) :
  n ≤ length ts → take n (shaped ts tail) = Some <$> take n ts.
Proof.
  intros Hn. unfold shaped.
  rewrite take_app_le by (by rewrite length_fmap). by rewrite fmap_take.
Qed.

Lemma drop_shaped (ts : list string) (tail : list slot) (n : nat) :
  n ≤ length ts → drop n (shaped ts tail) = shaped (drop n ts) tail.
Proof.
  intros Hn. unfold shaped.
  rewrite drop_app_le by (by rewrite length_fmap). by rewrite fmap_drop.
Qed.

(** *** First occurrences *)

Lemma index_of_Some (sym : string) (ts : list string) (i : nat) :
  index_of sym ts = Some i →
  ts !! i = Some sym ∧ ∀ j, j < i → ts !! j ≠ Some sym.
Proof.
  revert i. induction ts as [|t ts IH]; intros i; simpl; [done|].
  destruct (String.eqb_spec t sym) as [->|Hne].
  - intros [= <-]. split; [done | intros j Hj; lia].
  - destruct (index_of sym ts) as [k|]; simpl; [|done].
    intros [= <-]. destruct (IH k eq_refl) as [Hk Hbefore].
    split; [done|]. intros [|j] Hj; simpl; [congruence|].
    apply Hbefore. lia.
Qed.

Lemma index_of_None (sym : string) (ts : list string) :
  index_of sym ts = None ↔ sym ∉ ts.
Proof.
  induction ts as [|t ts IH]; simpl.
  - split; [intros _ H; by apply elem_of_nil in H | done].
  - rewrite elem_of_cons. destruct (String.eqb_spec t sym) as [->|Hne].
    + split; [done | intros H; destruct H; by left].
    + destruct (index_of sym ts); simpl.
      * split; [done|]. intros H.
        assert (sym ∉ ts) as Hn by (intros ?; apply H; by right).
        by apply IH in Hn.
      * split; [|done]. intros _ [->|Hin]; [done|]. by apply IH.
Qed.

Lemma index_of_first (sym : string) (ts : list string) (i : nat) :
  ts !! i = Some sym → (∀ j, j < i → ts !! j ≠ Some sym) →
  index_of sym ts = Some i.
Proof.
  revert i. induction ts as [|t ts IH]; intros i Hi Hbefore; [done|].
  simpl. destruct i as [|i]; simpl in Hi.
  - injection Hi as ->. by rewrite String.eqb_refl.
  - destruct (String.eqb_spec t sym) as [->|Hne].
    + exfalso. apply (Hbefore 0); [lia | done].
    + rewrite (IH i Hi); [done|]. intros j Hj. apply (Hbefore (S j)). lia.
Qed.

(** *** Pipe detection *)

Lemma find_pipe_loop_shaped (ts : list string) (tail : list slot) (fuel i : nat) :
  i + fuel = length ts →
  find_pipe_loop fuel i (shaped ts tail) =
    Some (match index_of "|" (drop i ts) with
          | Some k => Z.of_nat (i + k)
          | None => (-1)%Z
          end).
Proof.
  revert i. induction fuel as [|fuel IH]; intros i Hlen; simpl.
  - by rewrite drop_ge by lia.
  - destruct (lookup_lt_is_Some_2 ts i) as [t Ht]; [lia|].
    rewrite (shaped_lookup_lt _ _ _ _ Ht), (drop_S _ _ _ Ht). simpl.
    destruct (String.eqb t "|").
    + by rewrite Nat.add_0_r.
    + rewrite IH by lia. destruct (index_of "|" (drop (S i) ts)); simpl; [|done].
      do 2 f_equal. lia.
Qed.

Lemma find_pipe_idx_shaped (ts : list string) (tail : list slot) :
  find_pipe_idx (length ts) (shaped ts tail) =
    Some (match index_of "|" ts with
          | Some k => Z.of_nat k
          | None => (-1)%Z
          end).
Proof. unfold find_pipe_idx. by rewrite find_pipe_loop_shaped. Qed.

(** *** Compaction *)

Lemma shift_loop_spec (fuel j : nat) (a : list slot) :
  j + fuel + 2 ≤ length a →
  shift_loop fuel j a =
    Some (take j a ++ take fuel (drop (j + 2) a) ++ drop (j + fuel) a).
Proof.
  revert j a. induction fuel as [|fuel IH]; intros j a Hlen; simpl.
  - by rewrite Nat.add_0_r, take_drop.
  - destruct (lookup_lt_is_Some_2 a (j + 2)) as [v Hv]; [lia|].
    rewrite Hv, IH by (rewrite length_insert; lia). f_equal.
    rewrite (take_S_r _ _ v) by (apply list_lookup_insert_eq; lia).
    rewrite take_insert_ge by lia.
    rewrite !drop_insert_lt by lia.
    rewrite (drop_S a v (j + 2) Hv). simpl.
    rewrite <- app_assoc. simpl.
    by replace (S (j + fuel)) with (j + S fuel) by lia.
Qed.

Lemma compact_shaped (ts : list string) (tail : list slot) (i : nat) :
  i + 1 < length ts →
  (a' ← shift_loop (length ts - 2 - i) i (shaped ts tail);
   Some (<[length ts - 2 := None]> a')) =
  Some (shaped (compacted i ts) (drop (length ts - 1) (shaped ts tail))).
Proof.
  intros Hi. set (a := shaped ts tail).
  assert (length a = S (length ts + length tail)) as Hlen
    by apply shaped_length.
  rewrite shift_loop_spec by lia. simpl. f_equal.
  replace (i + (length ts - 2 - i)) with (length ts - 2) by lia.
  destruct (lookup_lt_is_Some_2 a (length ts - 2)) as [x Hx]; [lia|].
  rewrite (drop_S a x _ Hx).
  replace (S (length ts - 2)) with (length ts - 1) by lia.
  unfold a at 1 2. rewrite take_shaped by lia. rewrite drop_shaped by lia.
  rewrite take_shaped by (rewrite length_drop; lia).
  rewrite (take_ge (drop _ _)) by (rewrite length_drop; lia).
  rewrite app_assoc, <- fmap_app.
  rewrite insert_app_r_alt;
    rewrite length_fmap, length_app, length_take, length_drop; [|lia].
  replace (length ts - 2 - (i `min` length ts + (length ts - (i + 2))))
    with 0 by lia.
  done.
Qed.

Lemma is_valid_redirection_shaped (ts : list string) (tail : list slot) (i : nat) :
  is_valid_redirection i (length ts) (shaped ts tail) =
    Some (match ts !! (i + 1) with
          | Some f => negb (starts_with_redirect f)
          | None => false
          end).
Proof.
  unfold is_valid_redirection. destruct (Nat.ltb_spec (i + 1) (length ts)) as [Hlt|Hge].
  - destruct (lookup_lt_is_Some_2 ts (i + 1)) as [f Hf]; [done|].
    rewrite (shaped_lookup_lt _ _ _ _ Hf), Hf.
    unfold starts_with_redirect. by rewrite negb_orb.
  - by rewrite (lookup_ge_None_2 ts) by done.
Qed.

Lemma redirect_loop_shaped (sym : string) (ts : list string) (tail : list slot)
    (fuel i : nat) :
  i + fuel = length ts →
  redirect_loop sym fuel i (length ts) (shaped ts tail) =
    match index_of sym (drop i ts) with
    | Some k => redirect_at (i + k) ts tail
    | None => NotFound
    end.
Proof.
  revert i. induction fuel as [|fuel IH]; intros i Hlen; simpl.
  - by rewrite drop_ge by lia.
  - destruct (lookup_lt_is_Some_2 ts i) as [t Ht]; [lia|].
    rewrite (shaped_lookup_lt _ _ _ _ Ht), (drop_S _ _ _ Ht). simpl.
    destruct (String.eqb t sym).
    + rewrite Nat.add_0_r, is_valid_redirection_shaped. unfold redirect_at.
      destruct (ts !! (i + 1)) as [f|] eqn:Hf.
      * rewrite (shaped_lookup_lt _ _ _ _ Hf).
        destruct (starts_with_redirect f); simpl; [done|].
        apply lookup_lt_Some in Hf.
        pose proof (compact_shaped ts tail i Hf) as Hc.
        destruct (shift_loop _ _ _); simpl in Hc; [|done].
        by injection Hc as ->.
      * apply lookup_ge_None_1 in Hf.
        replace (i + 1) with (length ts) by lia.
        by rewrite shaped_lookup_sentinel.
    + rewrite IH by lia. destruct (index_of sym (drop (S i) ts)); simpl; [|done].
      f_equal. lia.
Qed.

Lemma redirect_input_shaped (ts : list string) (tail : list slot) :
  redirect_input (length ts) (shaped ts tail) = redirect_plan "<" ts tail.
Proof. unfold redirect_input. by rewrite redirect_loop_shaped. Qed.

Lemma redirect_output_shaped (ts : list string) (tail : list slot) :
  redirect_output (length ts) (shaped ts tail) = redirect_plan ">" ts tail.
Proof. unfold redirect_output. by rewrite redirect_loop_shaped. Qed.

Lemma compacted_length (i : nat) (ts : list string) :
  i + 1 < length ts → length (compacted i ts) = length ts - 2.
Proof.
  intros Hi. unfold compacted.
  rewrite length_app, length_take, length_drop. lia.
Qed.

End ResolverFacts.

(** ** The orchestrator on token vectors *)

Section OrchestratorFacts.

Context (o : os) (st : streams).

Lemma copy_loop_spec (a : list slot) (from count : nat) :
  from + count ≤ length a →
  copy_loop a from count = Some (take count (drop from a)).
Proof.
  revert from. induction count as [|count IH]; intros from Hlen; simpl.
  - done.
  - destruct (lookup_lt_is_Some_2 a from) as [v Hv]; [lia|].
    rewrite Hv, IH by lia. by rewrite (drop_S _ _ _ Hv).
Qed.

(** The two arrays of [execute_pipe] for a split at [k]. *)
Lemma pipe_lhs_arr (ts : list string) (k : nat) :
  k < length ts →
  pipe_lhs (arr ts) (Z.of_nat k) = Some (arr (take k ts)).
Proof.
  intros Hk. unfold pipe_lhs. rewrite Nat2Z.id.
  rewrite copy_loop_spec by (rewrite arr_shaped, shaped_length; lia).
  rewrite drop_0, arr_shaped, take_shaped by lia. done.
Qed.

Lemma pipe_rhs_arr (ts : list string) (k : nat) :
  k < length ts →
  pipe_rhs (arr ts) (Z.of_nat k) (length ts) = Some (arr (drop (S k) ts)).
Proof.
  intros Hk. unfold pipe_rhs.
  replace (Z.to_nat (Z.of_nat k + 1)) with (S k) by lia.
  replace (Z.to_nat (Z.of_nat (length ts) - Z.of_nat k - 1))
    with (length ts - S k) by lia.
  rewrite copy_loop_spec by (rewrite arr_shaped, shaped_length; lia).
  rewrite arr_shaped, drop_shaped by lia.
  rewrite take_shaped by (rewrite length_drop; lia).
  by rewrite take_ge by (rewrite length_drop; lia).
Qed.

(** [execute_pipe] spelled out on a vector split at [k]. *)
Lemma execute_pipe_arr (ts : list string) (k : nat) :
  k < length ts →
  execute_pipe o st (arr ts) (Z.of_nat k) (length ts) =
    if pipe_ok o then
      Run Returned
        [MkPipe true;
         Fork (left_child st (arr (take k ts))) (pid_of (fork_pid o 0));
         Fork (right_child st (arr (drop (S k) ts))) (pid_of (fork_pid o 1));
         Close PipeRead; Close PipeWrite;
         Waitpid (pid_of (fork_pid o 0)); Waitpid (pid_of (fork_pid o 1))]
        st (arr ts)
    else Run (Exited 1) [MkPipe false; Diag "pipe"] st (arr ts).
Proof.
  intros Hk. unfold execute_pipe.
  by rewrite pipe_lhs_arr, pipe_rhs_arr by done.
Qed.

(** A vector with a pipe goes to [execute_pipe] with the index of its
    first pipe. *)
Lemma execute_cmd_piped (ts : list string) (k : nat) :
  index_of "|" ts = Some k →
  execute_cmd o st (length ts) (arr ts) =
    execute_pipe o st (arr ts) (Z.of_nat k) (length ts).
Proof.
  intros Hk. unfold execute_cmd.
  apply index_of_Some in Hk as Hk'. destruct Hk' as [Hk' _].
  apply lookup_lt_Some in Hk'.
  destruct (Nat.eqb_spec (length ts) 0) as [?|_]; [lia|].
  rewrite arr_shaped, find_pipe_idx_shaped, Hk.
  by destruct (Z.eqb_spec (Z.of_nat k) (-1)) as [?|_]; [lia|].
Qed.

(** A vector without a pipe goes to the redirection scans. *)
Lemma execute_cmd_unpiped (ts : list string) :
  ts ≠ [] → "|" ∉ ts →
  execute_cmd o st (length ts) (arr ts) =
    resolve_input o st (length ts) (arr ts).
Proof.
  intros Hne Hpipe. unfold execute_cmd.
  destruct (Nat.eqb_spec (length ts) 0) as [Hz|_].
  - by destruct ts.
  - apply index_of_None in Hpipe.
    by rewrite arr_shaped, find_pipe_idx_shaped, Hpipe.
Qed.

(** [run_command] leaves the array alone. *)
Lemma run_command_args (n : nat) (a : list slot) (tr : list event) :
  r_args (run_command o st n a tr) = a.
Proof.
  unfold run_command.
  repeat (case_match; simpl; try done).
Qed.

Lemma forks_app (tr1 tr2 : list event) :
  forks (tr1 ++ tr2) = forks tr1 ++ forks tr2.
Proof. apply omap_app. Qed.

(** Every child forked by [run_command] is handed the vector of the array
    as its arguments, with slot 0 as the program. *)
Lemma run_command_forks (n : nat) (a : list slot) (c : child) :
  c ∈ forks (r_trace (run_command o st n a [])) →
  c_file c = default None (a !! 0) ∧ c_argv c = argv_view a.
Proof.
  unfold run_command.
  repeat (case_match; simpl; try (by intros ?%elem_of_nil));
    intros ->%list_elem_of_singleton; simpl; by simplify_eq.
Qed.

(** A command other than [cd] is forked exactly once, and after the wait
    both standard streams have been reopened on the terminal whatever they
    were bound to. *)
Lemma run_command_spawn (n : nat) (a : list slot) (cmd : string) :
  a !! 0 = Some (Some cmd) → cmd ≠ "cd" →
  forks (r_trace (run_command o st n a [])) =
    [Child st [] (Some cmd) (argv_view a) "execvp"].
Proof.
  intros Ha Hcd. unfold run_command, reopen_tty. rewrite Ha.
  destruct (String.eqb_spec cmd "cd") as [?|_]; [done|].
  destruct (fork_pid o 0); [|done].
  by destruct (can_read o "/dev/tty"), (can_write o "/dev/tty").
Qed.

Lemma run_command_restores (n : nat) (a : list slot) (tr : list event)
    (cmd : string) (pid : positive) :
  a !! 0 = Some (Some cmd) → cmd ≠ "cd" → fork_pid o 0 = Some pid →
  let r := run_command o st n a tr in
  r_outcome r = Returned ∧
  r_streams r =
    Streams (if can_read o "/dev/tty" then Tty else Closed)
            (if can_write o "/dev/tty" then Tty else Closed) ∧
  ∃ rest, r_trace r = tr ++ [Fork (Child st [] (Some cmd) (argv_view a) "execvp") (Zpos pid);
                             Waitpid (Zpos pid);
                             Freopen "/dev/tty" "r" Stdin (can_read o "/dev/tty")] ++ rest.
Proof.
  intros Ha Hcd Hfork. unfold run_command, reopen_tty. rewrite Ha, Hfork.
  destruct (String.eqb_spec cmd "cd") as [?|_]; [done|].
  simpl. repeat split. eauto.
Qed.

(** Without metacharacters [execute_cmd] is [run_command] on the vector as
    it came from the tokenizer. *)
Lemma execute_cmd_plain (ts : list string) :
  ts ≠ [] → "|" ∉ ts → "<" ∉ ts → ">" ∉ ts →
  execute_cmd o st (length ts) (arr ts) =
    run_command o st (length ts) (arr ts) [].
Proof.
  intros Hne Hpipe Hin Hout. rewrite execute_cmd_unpiped by done.
  apply index_of_None in Hin, Hout.
  unfold resolve_input. rewrite arr_shaped, redirect_input_shaped.
  unfold redirect_plan. rewrite Hin.
  unfold resolve_output. rewrite redirect_output_shaped.
  unfold redirect_plan. by rewrite Hout.
Qed.

End OrchestratorFacts.

(** ** Tokenization (C8, C9) *)

Section TokenizerClaims.

Lemma head_arr (ts : list string) : default None (arr ts !! 0) = head ts.
Proof. by destruct ts. Qed.

(** C8: the tokenizer yields the split of the line on runs of space and
    newline characters; a line of delimiters only (or an empty one) yields
    the empty vector; and on a line without the tokens [<], [>] and [|] the
    array is left as tokenized, so that every child forked for the line is
    started on exactly the split of the line, with its first token as the
    program (and at least one token is needed for anything to happen). *)
Theorem C8_tokenizer_split (o : os) (st : streams) (input : string) :
  let ts := buf_args (tokenize input) in
  let r := lr_run (parse_cmd o st input) in
  ts = split_ws input ∧
  (all_delims input = true → ts = [] ∧ r_trace r = []) ∧
  ("|" ∉ ts → "<" ∉ ts → ">" ∉ ts →
     argv_view (r_args r) = split_ws input ∧
     (∀ c, c ∈ forks (r_trace r) →
           c_file c = head (split_ws input) ∧ c_argv c = split_ws input) ∧
     (ts ≠ [] → head ts ≠ Some "cd" →
        forks (r_trace r) = [Child st [] (head ts) ts "execvp"])).
Proof.
  intros ts r. subst ts r. unfold parse_cmd; simpl.
  unfold buf_num_args. rewrite !tokenize_split.
  split; [done|]. split.
  - intros Hd. rewrite (all_delims_split _ Hd). done.
  - intros Hpipe Hin Hout.
    destruct (split_ws input) as [|t ts] eqn:Hts.
    { simpl. split; [done|]. split; [by intros c ?%elem_of_nil | done]. }
    rewrite execute_cmd_plain by done.
    rewrite run_command_args, arr_shaped, argv_view_shaped.
    split; [done|]. split.
    + intros c Hc. apply run_command_forks in Hc as [-> ->].
      by rewrite argv_view_shaped.
    + intros _ Hcd.
      rewrite (run_command_spawn o st _ _ t), argv_view_shaped; [done..|].
      by intros ->.
Qed.

(** The capacity after a line of exactly ten tokens is still the initial
    ten, which is also the slot the sentinel goes to. *)
Lemma ten_tokens_fill_the_array (input : string) :
  length (split_ws input) = 10 →
  sentinel_slot (tokenize input) = 10 ∧
  buf_capacity (tokenize input) = 10 ∧
  sentinel_in_bounds (tokenize input) = false.
Proof.
  intros Hlen. rewrite tokenize_fold.
  destruct (split_ws input) as [|t0 [|t1 [|t2 [|t3 [|t4 [|t5 [|t6 [|t7 [|t8 [|t9 [|]]]]]]]]]]];
    try discriminate.
  done.
Qed.

(** C9 fails on the code: on the line [a b c d e f g h i j] the loop ends
    with ten tokens in an array of ten slots without growing it, so the
    store [args[num_args] = NULL] goes to slot 10, one past the
    allocation.  One token more and the array has grown to twenty. *)
Theorem C9_sentinel_past_capacity :
  let b := tokenize "a b c d e f g h i j" in
  buf_args b = ["a"; "b"; "c"; "d"; "e"; "f"; "g"; "h"; "i"; "j"] ∧
  buf_capacity b = 10 ∧
  sentinel_slot b = 10 ∧
  sentinel_in_bounds b = false ∧
  buf_capacity (tokenize "a b c d e f g h i j k") = 20.
Proof. by vm_compute. Qed.

End TokenizerClaims.

(** ** Redirection (C5, C6) *)

Section RedirectionClaims.

Lemma first_at_index_of (sym : string) (i : nat) (ts : list string) :
  first_at sym i ts ↔ index_of sym ts = Some i.
Proof.
  split.
  - intros [Hi Hbefore]. by apply index_of_first.
  - intros H. by apply index_of_Some.
Qed.

(** The operand rule the two scans implement: the token after the symbol
    must exist and must not begin with ['<'] or ['>']. *)
Lemma operand_rule_first_byte (sym : string) (ts : list string) :
  operand_rule (λ t, negb (starts_with_redirect t))
    (λ n a, redirect_loop sym n 0 n a) sym ts.
Proof.
  intros i f Hfirst. apply first_at_index_of in Hfirst.
  rewrite arr_shaped, redirect_loop_shaped by done.
  rewrite drop_0, Hfirst. unfold redirect_at. simpl.
  destruct (ts !! (i + 1)) as [g|]; [destruct (starts_with_redirect g) eqn:Hg|].
  - split; [by intros (n & a & ?) | intros [[= ->] Hv]].
    by rewrite Hg in Hv.
  - split; [intros (n & a & [= -> _ _]) | intros [[= ->] _]]; [|eauto].
    by rewrite Hg.
  - split; [by intros (n & a & ?) | by intros [? _]].
Qed.

(** C5 as stated is false: in [cat < <file] the token after [<] exists and
    is neither [<] nor [>], yet [redirect_input] rejects it. *)
Lemma C5_operand_counterexample :
  ¬ operand_rule (λ t, negb (is_redirect_symbol t)) redirect_input "<"
      ["cat"; "<"; "<file"].
Proof.
  intros Hrule.
  destruct (Hrule 1 "<file") as [_ Hback].
  - split; [done|]. intros [|j] Hj; [done | lia].
  - destruct Hback as (n & a & Hscan); [done|]. by vm_compute in Hscan.
Qed.

(** C5, amended: for every token vector and each of the two scans, the
    extraction at the first occurrence of the symbol succeeds, and captures
    the following token as the target path, if and only if a following
    token exists and does not begin with ['<'] or ['>']. *)
Theorem C5_operand_rule (ts : list string) :
  operand_rule (λ t, negb (starts_with_redirect t)) redirect_input "<" ts ∧
  operand_rule (λ t, negb (starts_with_redirect t)) redirect_output ">" ts.
Proof. split; apply operand_rule_first_byte. Qed.

Lemma shaped_lookup_fmap (ts : list string) (tail : list slot) (j : nat) :
  j < length ts → shaped ts tail !! j = Some <$> ts !! j.
Proof.
  intros Hj. destruct (lookup_lt_is_Some_2 ts j) as [t Ht]; [done|].
  by rewrite (shaped_lookup_lt _ _ _ _ Ht), Ht.
Qed.

Lemma compacted_lookup_lt (i j : nat) (ts : list string) :
  j < i → i < length ts → compacted i ts !! j = ts !! j.
Proof.
  intros Hj Hi. unfold compacted.
  rewrite lookup_app_l by (rewrite length_take; lia).
  by apply lookup_take_lt.
Qed.

Lemma compacted_lookup_ge (i j : nat) (ts : list string) :
  i ≤ j → i < length ts → compacted i ts !! j = ts !! (j + 2).
Proof.
  intros Hj Hi. unfold compacted.
  rewrite lookup_app_r; rewrite length_take; [|lia].
  rewrite lookup_drop. f_equal. lia.
Qed.

(** A successful scan, read on the array it returns. *)
Lemma redirect_plan_extracted (sym : string) (ts : list string)
    (f : string) (n : nat) (a : list slot) :
  redirect_plan sym ts [] = Redirected f n a → extracted sym ts f n a.
Proof.
  unfold redirect_plan, redirect_at.
  destruct (index_of sym ts) as [i|] eqn:Hi; [|done].
  destruct (ts !! (i + 1)) as [g|] eqn:Hg; [|done].
  destruct (starts_with_redirect g); [done|]. intros [= <- <- <-].
  apply lookup_lt_Some in Hg as Hlt.
  exists i. split; [by apply first_at_index_of|]. split; [done|].
  pose proof (compacted_length i ts Hlt) as Hclen.
  split; [lia|]. split; [|split; [|split]].
  - intros j Hj. rewrite arr_shaped.
    rewrite !shaped_lookup_fmap by lia.
    by rewrite compacted_lookup_lt by lia.
  - intros j Hj. rewrite arr_shaped.
    rewrite !shaped_lookup_fmap by lia.
    by rewrite compacted_lookup_ge by lia.
  - rewrite <- Hclen. apply shaped_lookup_sentinel.
  - apply argv_view_shaped.
Qed.

Lemma run_command_trace (o : os) (st : streams) (n : nat) (a : list slot)
    (tr : list event) :
  ∃ rest, r_trace (run_command o st n a tr) = tr ++ rest.
Proof.
  unfold run_command, reopen_tty.
  repeat (case_match; simpl; eauto using app_nil_r).
  all: by exists [].
Qed.

Lemma redirect_plan_succeeds (sym : string) (ts : list string)
    (tail : list slot) (i : nat) (f : string) :
  first_at sym i ts → ts !! (i + 1) = Some f →
  starts_with_redirect f = false →
  redirect_plan sym ts tail =
    Redirected f (length ts - 2)
      (shaped (compacted i ts) (drop (length ts - 1) (shaped ts tail))).
Proof.
  intros Hfirst%first_at_index_of Hf Hvalid.
  unfold redirect_plan, redirect_at. by rewrite Hfirst, Hf, Hvalid.
Qed.

(** C6: on a vector without a pipe, whenever the first occurrence of [<]
    (of [>]) is followed by a token that does not begin with ['<'] or
    ['>'], the scan for it succeeds: it captures that token, moves every
    later element two slots to the left, lowers the count by two and
    writes the null sentinel at the new count, so that the vector left is
    the old one without the symbol and its operand; and no scan succeeds
    in any other way, so later occurrences of a symbol are never the ones
    honoured.  [execute_cmd] runs the input scan first and the output scan
    on the array the input scan left: when the compacted vector has a
    first [>] with such an operand, the output scan extracts that one, at
    the index it has in the compacted vector, the count ends four lower
    with the sentinel there, the input file is reopened before the output
    file, and the command runs on the vector with both pairs removed. *)
Theorem C6_extraction_compacts (o : os) (st : streams) (ts : list string) :
  "|" ∉ ts →
  (∀ i f, first_at "<" i ts → ts !! (i + 1) = Some f →
          starts_with_redirect f = false →
          ∃ a, redirect_input (length ts) (arr ts) =
                 Redirected f (length ts - 2) a ∧
               extracted "<" ts f (length ts - 2) a ∧
               argv_view a = compacted i ts) ∧
  (∀ i g, first_at ">" i ts → ts !! (i + 1) = Some g →
          starts_with_redirect g = false →
          ∃ a, redirect_output (length ts) (arr ts) =
                 Redirected g (length ts - 2) a ∧
               extracted ">" ts g (length ts - 2) a ∧
               argv_view a = compacted i ts) ∧
  (∀ f n a, redirect_input (length ts) (arr ts) = Redirected f n a →
            extracted "<" ts f n a) ∧
  (∀ g n a, redirect_output (length ts) (arr ts) = Redirected g n a →
            extracted ">" ts g n a) ∧
  (∀ i f j g,
     first_at "<" i ts → ts !! (i + 1) = Some f →
     starts_with_redirect f = false →
     first_at ">" j (compacted i ts) → compacted i ts !! (j + 1) = Some g →
     starts_with_redirect g = false →
     ∃ a1 a2,
       redirect_input (length ts) (arr ts) = Redirected f (length ts - 2) a1 ∧
       redirect_output (length ts - 2) a1 = Redirected g (length ts - 4) a2 ∧
       a2 !! (length ts - 4) = Some None ∧
       argv_view a2 = compacted j (compacted i ts) ∧
       (can_read o f = true → can_write o g = true →
        let r := execute_cmd o st (length ts) (arr ts) in
        r_args r = a2 ∧
        take 2 (r_trace r) =
          [Freopen f "r" Stdin true; Freopen g "w" Stdout true])).
Proof.
  intros Hpipe. rewrite !arr_shaped.
  rewrite redirect_input_shaped, redirect_output_shaped.
  split; [|split; [|split; [|split]]].
  - intros i f Hfirst Hf Hvalid.
    pose proof (redirect_plan_succeeds "<" ts [] i f Hfirst Hf Hvalid) as Hplan.
    eexists. split; [exact Hplan|].
    split; [by apply redirect_plan_extracted | apply argv_view_shaped].
  - intros i g Hfirst Hg Hvalid.
    pose proof (redirect_plan_succeeds ">" ts [] i g Hfirst Hg Hvalid) as Hplan.
    eexists. split; [exact Hplan|].
    split; [by apply redirect_plan_extracted | apply argv_view_shaped].
  - by apply redirect_plan_extracted.
  - by apply redirect_plan_extracted.
  - intros i f j g Hfirst Hf Hvalid Hfirst2 Hg Hvalid2.
    apply lookup_lt_Some in Hf as Hlt.
    apply lookup_lt_Some in Hg as Hlt2.
    pose proof (compacted_length i ts Hlt) as Hclen.
    pose proof (compacted_length j _ Hlt2) as Hclen2.
    set (a1 := shaped (compacted i ts) (drop (length ts - 1) (shaped ts []))).
    set (a2 := shaped (compacted j (compacted i ts))
                 (drop (length (compacted i ts) - 1) a1)).
    assert (redirect_input (length ts) (arr ts)
            = Redirected f (length ts - 2) a1) as Hin.
    { rewrite arr_shaped, redirect_input_shaped.
      by apply redirect_plan_succeeds. }
    assert (redirect_output (length ts - 2) a1
            = Redirected g (length ts - 4) a2) as Hout.
    { unfold a1. rewrite <- Hclen, redirect_output_shaped.
      rewrite (redirect_plan_succeeds ">" _ _ j g) by done.
      by replace (length (compacted i ts) - 2) with (length ts - 4) by lia. }
    exists a1, a2.
    split; [by rewrite <- redirect_input_shaped, <- arr_shaped|].
    split; [done|].
    split.
    { replace (length ts - 4) with (length (compacted j (compacted i ts)))
        by lia.
      apply shaped_lookup_sentinel. }
    split; [apply argv_view_shaped|].
    intros Hr Hw r. subst r.
    rewrite execute_cmd_unpiped by (done || by intros ->).
    unfold resolve_input, freopen. rewrite Hin, Hr.
    unfold resolve_output, freopen. rewrite Hout, Hw.
    rewrite run_command_args. split; [done|].
    destruct (run_command_trace o
                {| s_stdin := File f; s_stdout := File g |}
                (length ts - 4) a2
                ([Freopen f "r" Stdin true] ++ [Freopen g "w" Stdout true]))
      as [rest Hrest].
    simpl in *. by rewrite Hrest.
Qed.

End RedirectionClaims.

(** ** Pipes (C4, C7, C10) *)

Section PipeClaims.

Context (o : os) (st : streams).

Lemma elem_index_of (sym : string) (ts : list string) :
  sym ∈ ts → ∃ k, index_of sym ts = Some k.
Proof.
  intros Hin. destruct (index_of sym ts) as [k|] eqn:Hk; [eauto|].
  by apply index_of_None in Hk.
Qed.

Lemma left_child_arr (ts : list string) :
  left_child st (arr ts) =
    Child st [CClose PipeRead; CDup2 PipeWrite StdoutFd; CClose PipeWrite]
      (head ts) ts "execvp lhs".
Proof.
  unfold left_child. by rewrite head_arr, arr_shaped, argv_view_shaped.
Qed.

Lemma right_child_arr (ts : list string) :
  right_child st (arr ts) =
    Child st [CClose PipeWrite; CDup2 PipeRead StdinFd; CClose PipeRead]
      (head ts) ts "execvp rhs".
Proof.
  unfold right_child. by rewrite head_arr, arr_shaped, argv_view_shaped.
Qed.

(** C4: a vector that contains [|] anywhere is handed whole to
    [execute_pipe], split at its first [|].  No redirection is resolved on
    the way: the trace has no syntax diagnostic and no [freopen], the
    shell's streams and the array are untouched, and the two children are
    started on the tokens in front of and behind the pipe as they stand,
    so that every [<] and [>] of the line is an argument of one of them. *)
Theorem C4_pipe_precedence (ts : list string) :
  "|" ∈ ts →
  ∃ k, first_at "|" k ts ∧
       let r := execute_cmd o st (length ts) (arr ts) in
       r = execute_pipe o st (arr ts) (Z.of_nat k) (length ts) ∧
       existsb is_redirection_event (r_trace r) = false ∧
       r_streams r = st ∧
       r_args r = arr ts ∧
       ts = take k ts ++ "|" :: drop (S k) ts ∧
       (∀ t, t ∈ ts → is_redirect_symbol t = true →
             t ∈ take k ts ∨ t ∈ drop (S k) ts) ∧
       (pipe_ok o = true →
        ∃ l r', forks (r_trace r) = [l; r'] ∧
                c_argv l = take k ts ∧ c_argv r' = drop (S k) ts).
Proof.
  intros [k Hk]%elem_index_of. exists k.
  apply first_at_index_of in Hk as Hfirst. split; [done|].
  destruct Hfirst as [Hat _]. apply lookup_lt_Some in Hat as Hlt.
  pose proof (take_drop_middle ts k "|" Hat) as Hsplit.
  simpl. rewrite (execute_cmd_piped o st ts k Hk).
  split; [done|]. rewrite execute_pipe_arr by done.
  rewrite left_child_arr, right_child_arr.
  split; [by destruct (pipe_ok o)|].
  split; [by destruct (pipe_ok o)|].
  split; [by destruct (pipe_ok o)|].
  split; [done|]. split.
  - intros t Ht Hsym. rewrite <- Hsplit in Ht.
    apply elem_of_app in Ht as [Ht|Ht]; [by left|].
    apply elem_of_cons in Ht as [->|Ht]; [done | by right].
  - intros ->. simpl. eauto.
Qed.

(** C7: [execute_pipe] on a vector with a pipe at index [k] builds the
    left array from the slots [0 .. k-1] and the right array from the
    slots [k+1 .. end], each closed by its own null sentinel.  When the
    pipe and both forks succeed, the shell creates one pipe, forks the
    left child (read end closed, standard output on the write end, write
    end closed), forks the right child (write end closed, standard input
    on the read end, read end closed), only then closes both of its own
    ends, and waits for the left child and then for the right one before
    it returns.  For the first pipe of a line this is what [execute_cmd]
    runs. *)
Theorem C7_pipe_wiring (ts : list string) (k : nat) (pid1 pid2 : positive) :
  ts !! k = Some "|" →
  pipe_ok o = true → fork_pid o 0 = Some pid1 → fork_pid o 1 = Some pid2 →
  let r := execute_pipe o st (arr ts) (Z.of_nat k) (length ts) in
  pipe_lhs (arr ts) (Z.of_nat k) = Some (arr (take k ts)) ∧
  pipe_rhs (arr ts) (Z.of_nat k) (length ts) = Some (arr (drop (S k) ts)) ∧
  r_outcome r = Returned ∧
  r_trace r =
    [MkPipe true;
     Fork (Child st
             [CClose PipeRead; CDup2 PipeWrite StdoutFd; CClose PipeWrite]
             (head (take k ts)) (take k ts) "execvp lhs") (Zpos pid1);
     Fork (Child st
             [CClose PipeWrite; CDup2 PipeRead StdinFd; CClose PipeRead]
             (head (drop (S k) ts)) (drop (S k) ts) "execvp rhs") (Zpos pid2);
     Close PipeRead; Close PipeWrite;
     Waitpid (Zpos pid1); Waitpid (Zpos pid2)] ∧
  (first_at "|" k ts → execute_cmd o st (length ts) (arr ts) = r).
Proof.
  intros Hat Hpipe Hf1 Hf2 r. subst r.
  apply lookup_lt_Some in Hat as Hlt.
  split; [by apply pipe_lhs_arr|]. split; [by apply pipe_rhs_arr|].
  rewrite execute_pipe_arr by done.
  rewrite Hpipe, Hf1, Hf2, left_child_arr, right_child_arr. simpl.
  split; [done|]. split; [done|].
  intros Hfirst%first_at_index_of.
  rewrite (execute_cmd_piped o st ts k Hfirst), execute_pipe_arr by done.
  by rewrite Hpipe, Hf1, Hf2, left_child_arr, right_child_arr.
Qed.

Lemma index_of_last (sym : string) (front : list string) :
  sym ∉ front → index_of sym (front ++ [sym]) = Some (length front).
Proof.
  intros Hfront. apply index_of_first.
  - by apply list_lookup_middle.
  - intros j Hj Hat. rewrite lookup_app_l in Hat by done.
    by apply list_elem_of_lookup_2 in Hat.
Qed.

(** C10, amended: the pipe path checks neither operand of the pipe it
    splits at.  When [|] is the first token the left child calls [execvp]
    with a null program and an empty argument array; when [|] is the last
    token and occurs nowhere before, the right child does; and no syntax
    diagnostic is printed for a line with a pipe. *)
Theorem C10_pipe_operands_unchecked :
  pipe_ok o = true →
  (∀ back, left_is_null o st ("|" :: back)) ∧
  (∀ front, "|" ∉ front → right_is_null o st (front ++ ["|"])) ∧
  (∀ ts, "|" ∈ ts →
     existsb is_redirection_event
       (r_trace (execute_cmd o st (length ts) (arr ts))) = false).
Proof.
  intros Hpipe. split; [|split].
  - intros back. unfold left_is_null.
    rewrite (execute_cmd_piped o st _ 0) by done.
    rewrite execute_pipe_arr by (simpl; lia). rewrite Hpipe. simpl.
    eexists _, _. split; [done|]. by split.
  - intros front Hfront. unfold right_is_null.
    rewrite (execute_cmd_piped o st _ (length front))
      by (by apply index_of_last).
    rewrite execute_pipe_arr by (rewrite length_app; simpl; lia).
    rewrite Hpipe. simpl.
    eexists _, _. split; [done|].
    rewrite drop_ge by (rewrite length_app; simpl; lia). by split.
  - intros ts [k Hk]%elem_index_of.
    rewrite (execute_cmd_piped o st ts k Hk).
    apply index_of_Some in Hk as [Hat%lookup_lt_Some _].
    rewrite execute_pipe_arr by done. by destruct (pipe_ok o).
Qed.

End PipeClaims.

(** C10 as stated is false: in [a | b |] the last token is [|], yet the
    line is split at the first [|] and the right child runs [b] with the
    arguments [b] and [|]. *)
Lemma C10_last_pipe_counterexample :
  last (["a"; "|"; "b"] ++ ["|"]) = Some "|" ∧
  ¬ right_is_null os_ok on_tty (["a"; "|"; "b"] ++ ["|"]) ∧
  forks (r_trace (execute_cmd os_ok on_tty 4 (arr ["a"; "|"; "b"; "|"]))) =
    [Child on_tty [CClose PipeRead; CDup2 PipeWrite StdoutFd; CClose PipeWrite]
       (Some "a") ["a"] "execvp lhs";
     Child on_tty [CClose PipeWrite; CDup2 PipeRead StdinFd; CClose PipeRead]
       (Some "b") ["b"; "|"] "execvp rhs"].
Proof.
  split; [done|]. split; [|done].
  intros (l & r & Hforks & Hfile & _).
  vm_compute in Hforks. injection Hforks as <- <-. done.
Qed.

(** ** Where the code leaves the specification (C1, C2, C3) *)

Section Divergences.

(** C1 fails on the code: a scan that prints the syntax diagnostic returns
    [false], which [execute_cmd] reads as "no redirection", and the command
    is run with the symbol as an argument.  On [ls >] a child is forked for
    [ls] with the arguments [ls] and [>]; on [cd >] the built-in changes to
    the directory [>]; on [cat < >] both scans complain and [cat] still
    runs. *)
Theorem C1_syntax_error_still_executes :
  redirect_output 2 (arr ["ls"; ">"]) = SyntaxError None ∧
  r_trace (lr_run (parse_cmd os_ok on_tty "ls >")) =
    [SyntaxDiag None;
     Fork (Child on_tty [] (Some "ls") ["ls"; ">"] "execvp") 101;
     Waitpid 101;
     Freopen "/dev/tty" "r" Stdin true;
     Freopen "/dev/tty" "w" Stdout true] ∧
  r_trace (lr_run (parse_cmd os_ok on_tty "cd >")) =
    [SyntaxDiag None; Chdir ">" true] ∧
  forks (r_trace (lr_run (parse_cmd os_ok on_tty "cat < >"))) =
    [Child on_tty [] (Some "cat") ["cat"; "<"; ">"] "execvp"].
Proof. by vm_compute. Qed.

(** C2 fails on the code: on [< file] the input scan removes both tokens,
    the count drops to zero and slot 0 becomes null, standard input is
    reopened on the file, and the [cd] test then reads slot 0 as a string.
    The emptiness test at the top of [execute_cmd] is not repeated after
    the extraction. *)
Theorem C2_empty_vector_is_dereferenced :
  let r := lr_run (parse_cmd os_ok on_tty "< file") in
  redirect_input 2 (arr ["<"; "file"]) =
    Redirected "file" 0 [None; Some "file"; None] ∧
  r_outcome r = Crashed ∧
  r_trace r = [Freopen "file" "r" Stdin true] ∧
  r_streams r = Streams (File "file") Tty.
Proof. by vm_compute. Qed.

(** C3 fails on the code: the streams are reopened on the terminal only
    at the end of the spawn path.  After [cd /tmp > out.txt] the function
    has returned with standard output still bound to [out.txt], and the
    clean-up loop has not freed the token [>]; after [cat < in > out] with
    an output file that cannot be opened, standard input is still bound to
    [in].  In a session the prompt of the line after [cd /tmp > out.txt]
    goes to [out.txt], and so does the output of the [ls] typed there. *)
Theorem C3_redirection_survives_the_line :
  let line := parse_cmd os_ok on_tty "cd /tmp > out.txt" in
  let failed := parse_cmd os_read_only on_tty "cat < in > out" in
  let session :=
    main os_ok on_tty ["cd /tmp > out.txt" +:+ newline; "ls" +:+ newline] in
  r_outcome (lr_run line) = Returned ∧
  r_trace (lr_run line) =
    [Freopen "out.txt" "w" Stdout true; Chdir "/tmp" true] ∧
  r_streams (lr_run line) = Streams Tty (File "out.txt") ∧
  lr_freed line = [Some "cd"; Some "/tmp"; None; Some "out.txt"] ∧
  r_outcome (lr_run failed) = Returned ∧
  forks (r_trace (lr_run failed)) = [] ∧
  r_streams (lr_run failed) = Streams (File "in") Closed ∧
  fst <$> session = [Tty; File "out.txt"] ∧
  (∃ first second, session = [(Tty, Command first); (File "out.txt", Command second)] ∧
     forks (r_trace (lr_run second)) =
       [Child (Streams Tty (File "out.txt")) [] (Some "ls") ["ls"] "execvp"]).
Proof.
  repeat (split; [by vm_compute|]).
  eexists _, _. split; by vm_compute.
Qed.

End Divergences.

(** ** Instances *)

Section Instances.

(** Membership in a concrete vector is settled by evaluation. *)
Ltac by_deciding := apply (bool_decide_unpack _); vm_compute; exact I.

Lemma C4_pipe_precedence_witness :
  "|" ∈ ["echo"; "a"; ">"; "f"; "|"; "cat"] ∧
  ∃ l r,
    forks (r_trace (execute_cmd os_ok on_tty 6
                      (arr ["echo"; "a"; ">"; "f"; "|"; "cat"]))) = [l; r] ∧
    c_argv l = ["echo"; "a"; ">"; "f"] ∧ c_argv r = ["cat"].
Proof.
  assert ("|" ∈ ["echo"; "a"; ">"; "f"; "|"; "cat"]) as Hin
    by (by_deciding).
  split; [exact Hin|].
  destruct (C4_pipe_precedence os_ok on_tty _ Hin)
    as (k & Hfirst & _ & _ & _ & _ & _ & _ & Hforks).
  assert (k = 4) as ->.
  { apply first_at_index_of in Hfirst. vm_compute in Hfirst. congruence. }
  destruct (Hforks eq_refl) as (l & r & Hf & Hl & Hr).
  exists l, r. split; [exact Hf|]. split; [exact Hl | exact Hr].
Defined.

Lemma C5_operand_rule_witness :
  ∃ n a, redirect_input 3 (arr ["cat"; "<"; "in.txt"]) = Redirected "in.txt" n a.
Proof.
  destruct (C5_operand_rule ["cat"; "<"; "in.txt"]) as [Hin _].
  apply (Hin 1 "in.txt").
  - split; [reflexivity|]. intros [|j] Hj; [discriminate | lia].
  - split; reflexivity.
Defined.

Lemma C6_extraction_compacts_witness :
  ("|" ∉ ["sort"; "<"; "in"; ">"; "out"]) ∧
  (∃ a, redirect_input 5 (arr ["sort"; "<"; "in"; ">"; "out"]) =
          Redirected "in" 3 a ∧
        argv_view a = ["sort"; ">"; "out"]) ∧
  (∃ a, redirect_output 5 (arr ["sort"; "<"; "in"; ">"; "out"]) =
          Redirected "out" 3 a ∧
        argv_view a = ["sort"; "<"; "in"]) ∧
  (∃ a1 a2,
     redirect_input 5 (arr ["sort"; "<"; "in"; ">"; "out"]) =
       Redirected "in" 3 a1 ∧
     redirect_output 3 a1 = Redirected "out" 1 a2 ∧
     a2 !! 1 = Some None ∧
     argv_view a2 = ["sort"] ∧
     r_args (execute_cmd os_ok on_tty 5 (arr ["sort"; "<"; "in"; ">"; "out"]))
       = a2 ∧
     take 2 (r_trace (execute_cmd os_ok on_tty 5
                        (arr ["sort"; "<"; "in"; ">"; "out"]))) =
       [Freopen "in" "r" Stdin true; Freopen "out" "w" Stdout true]).
Proof.
  assert ("|" ∉ ["sort"; "<"; "in"; ">"; "out"]) as Hpipe
    by (by_deciding).
  split; [exact Hpipe|].
  destruct (C6_extraction_compacts os_ok on_tty _ Hpipe)
    as (Hin & Hout & _ & _ & Hboth).
  split; [|split].
  - destruct (Hin 1 "in") as (a & Hscan & _ & Hargv);
      [apply first_at_index_of; reflexivity | reflexivity | reflexivity |].
    exists a. split; [exact Hscan | exact Hargv].
  - destruct (Hout 3 "out") as (a & Hscan & _ & Hargv);
      [apply first_at_index_of; reflexivity | reflexivity | reflexivity |].
    exists a. split; [exact Hscan | exact Hargv].
  - destruct (Hboth 1 "in" 1 "out")
      as (a1 & a2 & Hscan1 & Hscan2 & Hnull & Hargv & Hrun);
      [apply first_at_index_of; reflexivity | reflexivity | reflexivity
      |apply first_at_index_of; reflexivity | reflexivity | reflexivity |].
    destruct (Hrun eq_refl eq_refl) as (Hargs & Htrace).
    exists a1, a2.
    split; [exact Hscan1|]. split; [exact Hscan2|]. split; [exact Hnull|].
    split; [exact Hargv|]. split; [exact Hargs | exact Htrace].
Defined.

Lemma C7_pipe_wiring_witness :
  r_trace (execute_pipe os_ok on_tty (arr ["echo"; "hi"; "|"; "wc"; "-w"]) 2 5) =
    [MkPipe true;
     Fork (Child on_tty
             [CClose PipeRead; CDup2 PipeWrite StdoutFd; CClose PipeWrite]
             (Some "echo") ["echo"; "hi"] "execvp lhs") 101;
     Fork (Child on_tty
             [CClose PipeWrite; CDup2 PipeRead StdinFd; CClose PipeRead]
             (Some "wc") ["wc"; "-w"] "execvp rhs") 102;
     Close PipeRead; Close PipeWrite; Waitpid 101; Waitpid 102].
Proof.
  apply (C7_pipe_wiring os_ok on_tty ["echo"; "hi"; "|"; "wc"; "-w"] 2 101 102);
    reflexivity.
Defined.

Lemma C8_tokenizer_split_witness :
  forks (r_trace (lr_run (parse_cmd os_ok on_tty "ls  -l
"))) = [Child on_tty [] (Some "ls") ["ls"; "-l"] "execvp"].
Proof.
  destruct (C8_tokenizer_split os_ok on_tty "ls  -l
") as (_ & _ & Hplain).
  destruct Hplain as (_ & _ & Hforks);
    try (by_deciding).
  apply Hforks; vm_compute; discriminate.
Defined.

Lemma C10_pipe_operands_unchecked_witness :
  pipe_ok os_ok = true ∧
  left_is_null os_ok on_tty ["|"; "b"] ∧
  right_is_null os_ok on_tty (["a"] ++ ["|"]).
Proof.
  split; [reflexivity|].
  destruct (C10_pipe_operands_unchecked os_ok on_tty eq_refl)
    as (Hleft & Hright & _).
  split; [apply Hleft|]. apply Hright.
  by_deciding.
Defined.

End Instances.

(** * Further properties of the code *)

Import Text.

(** ** The tokens of a line *)

Section TokenProperties.

Lemma has_delim_snoc (s : string) (c : ascii) :
  has_delim s = false → is_delim c = false →
  has_delim (s +:+ String c EmptyString) = false.
Proof.
  induction s as [|d s IH]; intros Hs Hc.
  - simpl. by rewrite Hc.
  - rewrite append_cons. simpl in *.
    apply orb_false_iff in Hs as [-> Hs]. simpl. by apply IH.
Qed.

Lemma split_ws_from_delim_free (cur s : string) :
  has_delim cur = false →
  Forall (λ t, has_delim t = false) (split_ws_from cur s).
Proof.
  revert cur. induction s as [|c s IH]; intros cur Hcur; simpl.
  - destruct cur; by repeat constructor.
  - destruct (is_delim c) eqn:Hc.
    + destruct cur; [by apply IH|]. constructor; [done | by apply IH].
    + apply IH. by apply has_delim_snoc.
Qed.

Lemma tokens_well_formed (input : string) :
  Forall (λ t, t ≠ EmptyString ∧ has_delim t = false)
    (buf_args (tokenize input)).
Proof.
  apply Forall_and. split; [apply tokenize_nonempty|].
  rewrite tokenize_split. by apply split_ws_from_delim_free.
Qed.

(** The tokens stored by [parse_cmd] are never empty and hold no space
    and no newline. *)
Theorem tokens_nonempty_delim_free (input : string) :
  Forall (λ t, t ≠ EmptyString ∧ has_delim t = false)
    (buf_args (tokenize input)).
Proof. apply tokens_well_formed. Qed.

Lemma concat_split_ws_from (cur s : string) :
  concat_tokens (split_ws_from cur s) = cur +:+ strip_delims s.
Proof.
  revert cur. induction s as [|c s IH]; intros cur; simpl.
  - destruct cur; [done|]. simpl. by rewrite !append_empty_r.
  - destruct (is_delim c).
    + destruct cur; [apply IH|]. simpl. by rewrite IH.
    + by rewrite IH, append_snoc.
Qed.

(** Tokenizing loses nothing but the delimiters: the tokens written one
    after the other are the line without its spaces and newlines. *)
Theorem tokens_keep_the_bytes (input : string) :
  concat_tokens (buf_args (tokenize input)) = strip_delims input.
Proof. rewrite tokenize_split. apply concat_split_ws_from. Qed.

Lemma split_ws_from_token (cur t rest : string) :
  has_delim t = false → cur +:+ t ≠ EmptyString →
  split_ws_from cur (t +:+ String " " rest) =
    (cur +:+ t) :: split_ws_from EmptyString rest.
Proof.
  revert cur. induction t as [|c t IH]; intros cur Ht Hne.
  - rewrite append_empty_r in *. simpl. by destruct cur.
  - rewrite append_cons. simpl in *.
    apply orb_false_iff in Ht as [-> Ht].
    rewrite IH, append_snoc; [done..|].
    rewrite append_snoc. apply append_cons_nonempty.
Qed.

Lemma split_unwords (ts : list string) :
  Forall (λ t, t ≠ EmptyString ∧ has_delim t = false) ts →
  split_ws (unwords ts) = ts.
Proof.
  unfold split_ws. induction 1 as [|t ts [Hne Hd] _ IH]; simpl; [done|].
  by rewrite split_ws_from_token, IH.
Qed.

(** Tokenizing is idempotent on its own output: the tokens of a line,
    written out with single spaces and tokenized again, are the same
    tokens. *)
Theorem tokenize_unwords (input : string) :
  buf_args (tokenize (unwords (buf_args (tokenize input)))) =
  buf_args (tokenize input).
Proof.
  rewrite (tokenize_split (unwords _)).
  apply split_unwords, tokens_well_formed.
Qed.

End TokenProperties.

(** ** The capacity of the argument array *)

Section CapacityProperties.

Lemma store_token_inv (b : arg_buf) (t : string) :
  capacity_inv b → capacity_inv (store_token b t).
Proof.
  intros (k & Hcap & Hfit & Hgrown).
  unfold capacity_inv, store_token, buf_num_args in *. simpl.
  rewrite length_app. simpl.
  destruct (Nat.leb_spec (buf_capacity b) (length (buf_args b))) as [Hfull|Hroom].
  - exists (S k). rewrite Nat.pow_succ_r'. split; [lia|].
    assert (0 < 2 ^ k) by (apply Nat.neq_0_lt_0, Nat.pow_nonzero; lia).
    split; [lia|]. right. lia.
  - exists k. split; [done|]. split; [lia|]. destruct Hgrown; [by left | right; lia].
Qed.

Lemma foldl_store_inv (ts : list string) (b : arg_buf) :
  capacity_inv b → capacity_inv (foldl store_token b ts).
Proof.
  revert b. induction ts as [|t ts IH]; intros b Hb; simpl; [done|].
  by apply IH, store_token_inv.
Qed.

Lemma tokenize_inv (input : string) : capacity_inv (tokenize input).
Proof.
  rewrite tokenize_fold. apply foldl_store_inv.
  exists 0. unfold buf_num_args. simpl. split; [done|]. split; [lia | by left].
Qed.

(** After the loop of [parse_cmd] the tokens fit the array, whose capacity
    is ten doubled some number of times; the null sentinel written after
    the loop falls outside the array exactly when the number of tokens is
    10, 20, 40, ... *)
Theorem sentinel_overflow_exactly (input : string) :
  let b := tokenize input in
  buf_num_args b ≤ buf_capacity b ∧
  (∃ k, buf_capacity b = 10 * 2 ^ k) ∧
  (sentinel_in_bounds b = false ↔ ∃ k, length (split_ws input) = 10 * 2 ^ k).
Proof.
  intros b. destruct (tokenize_inv input) as (k & Hcap & Hfit & Hgrown).
  fold b in Hcap, Hfit, Hgrown.
  assert (buf_num_args b = length (split_ws input)) as Hn
    by (unfold buf_num_args, b; by rewrite tokenize_split).
  split; [done|]. split; [eauto|].
  unfold sentinel_in_bounds, sentinel_slot. rewrite Nat.ltb_ge, <- Hn.
  split.
  - intros Hfull. exists k. lia.
  - intros [j Hj]. rewrite Hj, Hcap in *.
    assert (j ≤ k) as Hjk.
    { apply (Nat.pow_le_mono_r_iff 2); lia. }
    destruct Hgrown as [->|Hlt].
    + assert (j = 0) as -> by lia. done.
    + assert (k < S j) as Hkj.
      { apply (Nat.pow_lt_mono_r_iff 2); [lia|]. rewrite Nat.pow_succ_r'. lia. }
      assert (k = j) as -> by lia. done.
Qed.

End CapacityProperties.

(** ** The scans of the resolver *)

Section ScanProperties.

(** [find_pipe_idx] on a token vector always returns: [-1] exactly when no
    token is [|], and otherwise the index, below the count, of the first
    token that is. *)
Theorem find_pipe_idx_result (ts : list string) :
  ∃ z, find_pipe_idx (length ts) (arr ts) = Some z ∧
       (z = (-1)%Z ↔ "|" ∉ ts) ∧
       (z ≠ (-1)%Z →
        ∃ k, z = Z.of_nat k ∧ k < length ts ∧ first_at "|" k ts).
Proof.
  rewrite arr_shaped, find_pipe_idx_shaped.
  destruct (index_of "|" ts) as [k|] eqn:Hk.
  - exists (Z.of_nat k). split; [done|]. split.
    + split; [lia|]. intros Hno. apply index_of_None in Hno. congruence.
    + intros _. exists k. split; [done|].
      apply first_at_index_of in Hk as Hfirst.
      split; [|done]. destruct Hfirst as [Hat _]. by apply lookup_lt_Some in Hat.
  - exists (-1)%Z. split; [done|]. split; [|done].
    split; [intros _; by apply index_of_None | done].
Qed.

Lemma redirect_plan_no_bad_read (sym : string) (ts : list string)
    (tail : list slot) :
  redirect_plan sym ts tail ≠ BadRead.
Proof.
  unfold redirect_plan, redirect_at.
  destruct (index_of sym ts); [|done].
  destruct (ts !! _); [|done]. by destruct (starts_with_redirect _).
Qed.

Lemma scan_reads_plan (sym : string) (ts : list string) (tail : list slot) :
  scan_reads (λ n a, redirect_loop sym n 0 n a) sym ts tail.
Proof.
  unfold scan_reads. rewrite redirect_loop_shaped by done. rewrite drop_0.
  fold (redirect_plan sym ts tail).
  split; [apply redirect_plan_no_bad_read|].
  unfold redirect_plan, redirect_at.
  destruct (index_of sym ts) as [i|] eqn:Hi.
  - apply first_at_index_of in Hi as Hfirst. simpl. split.
    + destruct (ts !! (i + 1)) as [f|] eqn:Hf.
      * split.
        { by destruct (starts_with_redirect f). }
        intros (i' & Hfirst' & Hlast).
        apply first_at_index_of in Hfirst'.
        assert (i' = i) as -> by congruence.
        apply lookup_lt_Some in Hf. lia.
      * split; [|done]. intros _. exists i. split; [done|].
        apply lookup_ge_None_1 in Hf.
        destruct Hfirst as [Hat%lookup_lt_Some _]. lia.
    + intros f n a. destruct (ts !! (i + 1)) as [g|] eqn:Hg; [|done].
      destruct (starts_with_redirect g); [done|]. intros [= <- <- <-].
      eexists _, _. split; [done|].
      apply lookup_lt_Some in Hg. by rewrite compacted_length.
  - split; [|done]. split; [done|].
    intros (i & Hfirst%first_at_index_of & _). congruence.
Qed.

(** What the scans read.  On an array that holds a token vector and its
    sentinel, [find_pipe_idx] and the comparisons and copies of
    [redirect_input] and [redirect_output] ([strcmp(args[i], ...)],
    [args[i + 1][0]], [args[j] = args[j + 2]]) read strings inside the
    array only.  The one null pointer a scan uses as a string is
    [args[i + 1]] in its syntax diagnostic, which is the sentinel exactly
    when the first occurrence of the symbol is the last token.  The array
    a successful scan returns again holds a token vector of the returned
    count and its sentinel, so all of this holds for the output scan after
    the input scan as well. *)
Theorem scans_null_reads_exactly (ts : list string) (tail : list slot) :
  find_pipe_idx (length ts) (shaped ts tail) ≠ None ∧
  scan_reads redirect_input "<" ts tail ∧
  scan_reads redirect_output ">" ts tail.
Proof.
  rewrite find_pipe_idx_shaped. split; [done|].
  split; apply scan_reads_plan.
Qed.

Lemma scan_failures_plan (sym : string) (ts : list string) :
  scan_failures (λ n a, redirect_loop sym n 0 n a) sym ts.
Proof.
  unfold scan_failures.
  rewrite arr_shaped, redirect_loop_shaped by done. rewrite drop_0.
  split; [|split].
  - rewrite <- index_of_None. unfold redirect_at.
    destruct (index_of sym ts) as [i|]; [|done].
    split; [|done]. destruct (ts !! _); [|done].
    by destruct (starts_with_redirect _).
  - intros i Hfirst%first_at_index_of Hlast. rewrite Hfirst.
    unfold redirect_at. simpl. by rewrite lookup_ge_None_2 by lia.
  - intros i t Hfirst%first_at_index_of Ht Hstart. rewrite Hfirst.
    unfold redirect_at. simpl. by rewrite Ht, Hstart.
Qed.

(** How the two scans fail.  A scan returns "not found" exactly when its
    symbol is absent.  When the first occurrence of the symbol is the last
    token, the diagnostic is printed with [args[i + 1]], which is the null
    sentinel; when the next token begins with ['<'] or ['>'], it is printed
    with that token.  In every case the array is left as it was. *)
Theorem scans_fail_three_ways (ts : list string) :
  scan_failures redirect_input "<" ts ∧ scan_failures redirect_output ">" ts.
Proof. split; apply scan_failures_plan. Qed.

End ScanProperties.

(** ** Built-in, failures of the operating system *)

Section OrchestratorProperties.

Context (o : os) (st : streams).

(** [cd] on a line without metacharacters runs in the shell itself: no
    child is forked and the streams are untouched.  Without an operand
    only the diagnostic is printed and [chdir] is not called; with
    operands [chdir] is called once, on the first, the others are
    ignored, and a failure is reported without ending the shell. *)
Theorem cd_runs_in_the_shell (rest : list string) :
  plain rest →
  let r := execute_cmd o st (length ("cd" :: rest)) (arr ("cd" :: rest)) in
  r_outcome r = Returned ∧
  forks (r_trace r) = [] ∧
  r_streams r = st ∧
  r_trace r =
    match rest with
    | [] => [Diag "cd: missing operand"]
    | dir :: _ =>
        if can_chdir o dir then [Chdir dir true]
        else [Chdir dir false; Diag "cd"]
    end.
Proof.
  intros (Hpipe & Hin & Hout) r. subst r.
  rewrite execute_cmd_plain;
    [|done|by apply not_elem_of_cons..].
  unfold run_command. simpl.
  destruct rest as [|dir rest]; simpl; [done|].
  by destruct (can_chdir o dir).
Qed.

(** A failing [fork] on the single-command path ends the shell: the
    failure is reported and the process exits with status 1, without a
    wait and without reopening the streams. *)
Theorem fork_failure_ends_the_shell (ts : list string) (cmd : string) :
  plain ts → head ts = Some cmd → cmd ≠ "cd" → fork_pid o 0 = None →
  let r := execute_cmd o st (length ts) (arr ts) in
  r_outcome r = Exited 1 ∧
  r_streams r = st ∧
  r_trace r = [Fork (Child st [] (Some cmd) ts "execvp") (-1); Diag "fork"].
Proof.
  intros (Hpipe & Hin & Hout) Hhead Hcd Hfork r. subst r.
  destruct ts as [|t ts]; [done|]. injection Hhead as ->.
  rewrite execute_cmd_plain by done.
  unfold run_command.
  replace (arr (cmd :: ts) !! 0) with (Some (Some cmd)) by done.
  destruct (String.eqb_spec cmd "cd") as [?|_]; [done|].
  by rewrite Hfork, arr_shaped, argv_view_shaped.
Qed.

(** A failing [pipe] ends the shell before any child is forked: the
    failure is reported and the process exits with status 1. *)
Theorem pipe_failure_ends_the_shell (ts : list string) :
  "|" ∈ ts → pipe_ok o = false →
  let r := execute_cmd o st (length ts) (arr ts) in
  r_outcome r = Exited 1 ∧
  r_trace r = [MkPipe false; Diag "pipe"].
Proof.
  intros [k Hk]%elem_index_of Hpipe r. subst r.
  rewrite (execute_cmd_piped o st ts k Hk).
  apply index_of_Some in Hk as [Hat%lookup_lt_Some _].
  rewrite execute_pipe_arr by done. by rewrite Hpipe.
Qed.

(** On the pipe path the result of [fork] is not examined.  When the first
    [fork] fails nothing is reported, the second child is forked all the
    same, and the shell waits on pid [-1] (any child) before it waits for
    the second child and returns. *)
Theorem pipe_fork_failure_is_ignored (ts : list string) (k : nat) :
  first_at "|" k ts → pipe_ok o = true → fork_pid o 0 = None →
  let r := execute_cmd o st (length ts) (arr ts) in
  r_outcome r = Returned ∧
  r_trace r =
    [MkPipe true;
     Fork (left_child st (arr (take k ts))) (-1);
     Fork (right_child st (arr (drop (S k) ts))) (pid_of (fork_pid o 1));
     Close PipeRead; Close PipeWrite;
     Waitpid (-1); Waitpid (pid_of (fork_pid o 1))].
Proof.
  intros Hk%first_at_index_of Hpipe Hfork r. subst r.
  rewrite (execute_cmd_piped o st ts k Hk).
  apply index_of_Some in Hk as [Hat%lookup_lt_Some _].
  rewrite execute_pipe_arr by done. by rewrite Hpipe, Hfork.
Qed.

End OrchestratorProperties.

(** ** Redirection from end to end *)

Section RedirectionProperties.

Context (o : os) (st : streams).

Lemma run_command_forks_tr (st' : streams) (n : nat) (a : list slot)
    (tr : list event) :
  forks (r_trace (run_command o st' n a tr)) =
    forks tr ++ forks (r_trace (run_command o st' n a [])).
Proof.
  unfold run_command, reopen_tty.
  repeat case_match; simpl; rewrite ?forks_app, ?app_nil_r; done.
Qed.

Lemma compacted_subseteq (i : nat) (ts : list string) (t : string) :
  t ∈ compacted i ts → t ∈ ts.
Proof.
  unfold compacted. intros [H|H]%elem_of_app.
  - by apply (subseteq_take i ts).
  - by apply (subseteq_drop (i + 2) ts).
Qed.

Lemma head_shaped (ts : list string) (tail : list slot) (t : string) :
  head ts = Some t → shaped ts tail !! 0 = Some (Some t).
Proof. destruct ts; [done|]. by intros [= ->]. Qed.

Lemma redirect_plan_found (sym : string) (ts : list string)
    (tail : list slot) (i : nat) (f : string) :
  first_at sym i ts → ts !! (i + 1) = Some f →
  starts_with_redirect f = false →
  redirect_plan sym ts tail =
    Redirected f (length (compacted i ts))
      (shaped (compacted i ts) (drop (length ts - 1) (shaped ts tail))).
Proof.
  intros Hfirst%first_at_index_of Hf Hvalid.
  unfold redirect_plan, redirect_at. rewrite Hfirst, Hf, Hvalid.
  by rewrite compacted_length by (by apply lookup_lt_Some in Hf).
Qed.

Lemma redirect_plan_absent (sym : string) (ts : list string)
    (tail : list slot) :
  sym ∉ ts → redirect_plan sym ts tail = NotFound.
Proof.
  intros Hno%index_of_None. unfold redirect_plan. by rewrite Hno.
Qed.

(** A well-formed input redirection reaches the child: on a line without
    [|] and [>] whose first [<] has an operand [f] that can be opened,
    standard input is reopened on [f] before anything else, and the one
    child forked inherits it and is started on the line without the symbol
    and its operand. *)
Theorem input_redirection_reaches_the_child (ts : list string) (i : nat)
    (f cmd : string) :
  "|" ∉ ts → ">" ∉ ts →
  first_at "<" i ts → ts !! (i + 1) = Some f →
  starts_with_redirect f = false → can_read o f = true →
  head (compacted i ts) = Some cmd → cmd ≠ "cd" →
  let r := execute_cmd o st (length ts) (arr ts) in
  head (r_trace r) = Some (Freopen f "r" Stdin true) ∧
  forks (r_trace r) =
    [Child (Streams (File f) (s_stdout st)) [] (Some cmd)
       (compacted i ts) "execvp"].
Proof.
  intros Hpipe Hout Hfirst Hf Hvalid Hread Hhead Hcd r. subst r.
  rewrite execute_cmd_unpiped by (done || by intros ->).
  unfold resolve_input, freopen.
  rewrite arr_shaped, redirect_input_shaped.
  rewrite (redirect_plan_found _ _ _ i f) by done. rewrite Hread.
  unfold resolve_output. rewrite redirect_output_shaped.
  rewrite redirect_plan_absent
    by (intros Hin; by apply compacted_subseteq in Hin).
  split.
  - destruct (run_command_trace o {| s_stdin := File f; s_stdout := s_stdout st |}
                (length (compacted i ts))
                (shaped (compacted i ts) (drop (length ts - 1) (shaped ts [])))
                [Freopen f "r" Stdin true]) as [rest ->].
    done.
  - rewrite run_command_forks_tr.
    rewrite (run_command_spawn _ _ _ _ cmd) by (done || by apply head_shaped).
    by rewrite argv_view_shaped.
Qed.

(** A well-formed output redirection reaches the child: on a line without
    [|] and [<] whose first [>] has an operand [g] that can be opened,
    standard output is reopened on [g] before anything else, and the one
    child forked inherits it and is started on the line without the symbol
    and its operand. *)
Theorem output_redirection_reaches_the_child (ts : list string) (i : nat)
    (g cmd : string) :
  "|" ∉ ts → "<" ∉ ts →
  first_at ">" i ts → ts !! (i + 1) = Some g →
  starts_with_redirect g = false → can_write o g = true →
  head (compacted i ts) = Some cmd → cmd ≠ "cd" →
  let r := execute_cmd o st (length ts) (arr ts) in
  head (r_trace r) = Some (Freopen g "w" Stdout true) ∧
  forks (r_trace r) =
    [Child (Streams (s_stdin st) (File g)) [] (Some cmd)
       (compacted i ts) "execvp"].
Proof.
  intros Hpipe Hin Hfirst Hg Hvalid Hwrite Hhead Hcd r. subst r.
  rewrite execute_cmd_unpiped by (done || by intros ->).
  unfold resolve_input.
  rewrite arr_shaped, redirect_input_shaped.
  rewrite redirect_plan_absent by done.
  unfold resolve_output, freopen. rewrite redirect_output_shaped.
  rewrite (redirect_plan_found _ _ _ i g) by done. rewrite Hwrite.
  split.
  - destruct (run_command_trace o {| s_stdin := s_stdin st; s_stdout := File g |}
                (length (compacted i ts))
                (shaped (compacted i ts) (drop (length ts - 1) (shaped ts [])))
                ([] ++ [Freopen g "w" Stdout true])) as [rest ->].
    done.
  - rewrite run_command_forks_tr.
    rewrite (run_command_spawn _ _ _ _ cmd) by (done || by apply head_shaped).
    by rewrite argv_view_shaped.
Qed.

(** A redirection file that cannot be opened abandons the line: the
    failure is reported and [execute_cmd] returns without forking, without
    running a built-in, and, for the input file, without scanning for an
    output redirection. *)
Theorem open_failure_abandons_the_line (ts : list string) (i : nat)
    (f : string) :
  "|" ∉ ts → ts !! (i + 1) = Some f → starts_with_redirect f = false →
  let r := execute_cmd o st (length ts) (arr ts) in
  (first_at "<" i ts → can_read o f = false →
   r_outcome r = Returned ∧
   r_trace r = [Freopen f "r" Stdin false; Diag "Failed to redirect input"]) ∧
  (first_at ">" i ts → "<" ∉ ts → can_write o f = false →
   r_outcome r = Returned ∧
   r_trace r = [Freopen f "w" Stdout false; Diag "Failed to redirect output"]).
Proof.
  intros Hpipe Hf Hvalid r. subst r.
  rewrite execute_cmd_unpiped by (done || by intros ->).
  unfold resolve_input, resolve_output, freopen.
  rewrite arr_shaped, redirect_input_shaped.
  split.
  - intros Hfirst Hread.
    rewrite (redirect_plan_found _ _ _ i f) by done. by rewrite Hread.
  - intros Hfirst Hin Hwrite.
    rewrite redirect_plan_absent by done. rewrite redirect_output_shaped.
    rewrite (redirect_plan_found _ _ _ i f) by done. by rewrite Hwrite.
Qed.

End RedirectionProperties.

(** ** Children and streams of a line *)

Section ChildProperties.

Context (o : os) (st : streams).

Ltac open_execute :=
  unfold execute_cmd, execute_pipe, resolve_input, resolve_output,
    run_command, freopen, reopen_tty.


Ltac find_elem := by repeat constructor.

(** No line forks more than two children, on any argument array. *)
Theorem at_most_two_children (n : nat) (a : list slot) :
  length (forks (r_trace (execute_cmd o st n a))) ≤ 2.
Proof.
  open_execute.
  repeat case_match; simpl; rewrite ?forks_app; simpl; lia.
Qed.

Lemma resolve_input_one_child (n : nat) (a : list slot) :
  length (forks (r_trace (resolve_input o st n a))) ≤ 1.
Proof.
  open_execute.
  repeat case_match; simpl; rewrite ?forks_app; simpl; lia.
Qed.

(** A line without a pipe forks at most one child. *)
Theorem at_most_one_child_without_pipe (ts : list string) :
  "|" ∉ ts →
  length (forks (r_trace (execute_cmd o st (length ts) (arr ts)))) ≤ 1.
Proof.
  intros Hpipe. destruct ts as [|t ts]; [simpl; lia|].
  rewrite execute_cmd_unpiped by done. apply resolve_input_one_child.
Qed.


Lemma resolve_input_restores (n : nat) (a : list slot) :
  let r := resolve_input o st n a in
  r_outcome r = Returned → forks (r_trace r) ≠ [] →
  r_streams r =
    Streams (if can_read o "/dev/tty" then Tty else Closed)
            (if can_write o "/dev/tty" then Tty else Closed) ∧
  (can_read o "/dev/tty" = false → Diag "Restoring stdin failed" ∈ r_trace r) ∧
  (can_write o "/dev/tty" = false → Diag "Restoring stdout failed" ∈ r_trace r).
Proof.
  open_execute.
  repeat case_match; simpl; try done; intros _ Hforks;
    (split; [done|]); split; intros ?; simplify_eq; find_elem.
Qed.

(** Whenever a line without a pipe has forked a child and [execute_cmd]
    returns, both standard streams have been reopened on [/dev/tty],
    whatever they were bound to before and whether or not the line
    redirected them; a stream that could not be reopened is left closed,
    the failure is reported, and the shell goes on. *)
Theorem spawn_path_restores_streams (ts : list string) :
  "|" ∉ ts →
  let r := execute_cmd o st (length ts) (arr ts) in
  r_outcome r = Returned → forks (r_trace r) ≠ [] →
  r_streams r =
    Streams (if can_read o "/dev/tty" then Tty else Closed)
            (if can_write o "/dev/tty" then Tty else Closed) ∧
  (can_read o "/dev/tty" = false → Diag "Restoring stdin failed" ∈ r_trace r) ∧
  (can_write o "/dev/tty" = false → Diag "Restoring stdout failed" ∈ r_trace r).
Proof.
  intros Hpipe. destruct ts as [|t ts]; [done|].
  rewrite execute_cmd_unpiped by done. apply resolve_input_restores.
Qed.

End ChildProperties.

(** ** Null slots *)

Section CrashProperties.

Context (o : os).

Lemma run_command_shaped_safe (st : streams) (ts : list string)
    (tail : list slot) (tr : list event) :
  ts ≠ [] →
  r_outcome (run_command o st (length ts) (shaped ts tail) tr) ≠ Crashed.
Proof.
  destruct ts as [|t ts]; [done|]. intros _.
  unfold run_command, reopen_tty. simpl.
  destruct (String.eqb t "cd").
  - destruct ts as [|dir ts]; simpl; [done|]. by destruct (can_chdir o dir).
  - by destruct (fork_pid o 0).
Qed.

Lemma head_compacted (i : nat) (ts : list string) (sym t : string) :
  head ts = Some t → t ≠ sym → ts !! i = Some sym →
  head (compacted i ts) = Some t.
Proof.
  destruct ts as [|t' ts]; [done|]. intros [= ->] Hne Hi.
  destruct i as [|i]; [by injection Hi|]. done.
Qed.

Lemma run_command_slot_zero (st : streams) (ts : list string)
    (tail : list slot) (tr : list event) (t : string) :
  head ts = Some t →
  let r := run_command o st (length ts) (shaped ts tail) tr in
  r_outcome r ≠ Crashed ∧ r_args r !! 0 = Some (Some t).
Proof.
  intros Hhead. split.
  - apply run_command_shaped_safe. by destruct ts.
  - rewrite run_command_args. by apply head_shaped.
Qed.

Lemma resolve_output_slot_zero (st : streams) (ts : list string)
    (tail : list slot) (tr : list event) (t : string) :
  head ts = Some t → t ≠ ">" →
  let r := resolve_output o st (length ts) (shaped ts tail) tr in
  r_outcome r ≠ Crashed ∧ r_args r !! 0 = Some (Some t).
Proof.
  intros Hhead Hne.
  unfold resolve_output, freopen. rewrite redirect_output_shaped.
  unfold redirect_plan, redirect_at.
  destruct (index_of ">" ts) as [i|] eqn:Hi;
    [|by apply run_command_slot_zero].
  destruct (ts !! (i + 1)) as [g|] eqn:Hg;
    [|by apply run_command_slot_zero].
  destruct (starts_with_redirect g); [by apply run_command_slot_zero|].
  apply index_of_Some in Hi as [Hat _].
  apply lookup_lt_Some in Hg.
  pose proof (head_compacted i ts ">" t Hhead Hne Hat) as Hc.
  destruct (can_write o g).
  - rewrite <- (compacted_length i ts) by done.
    by apply run_command_slot_zero.
  - simpl. split; [done | by apply head_shaped].
Qed.

Lemma resolve_input_slot_zero (st : streams) (ts : list string) (t : string) :
  head ts = Some t → t ≠ "<" → t ≠ ">" →
  let r := resolve_input o st (length ts) (arr ts) in
  r_outcome r ≠ Crashed ∧ r_args r !! 0 = Some (Some t).
Proof.
  intros Hhead Hin Hout.
  unfold resolve_input, freopen. rewrite arr_shaped, redirect_input_shaped.
  unfold redirect_plan, redirect_at.
  destruct (index_of "<" ts) as [i|] eqn:Hi;
    [|by apply resolve_output_slot_zero].
  destruct (ts !! (i + 1)) as [f|] eqn:Hf;
    [|by apply resolve_output_slot_zero].
  destruct (starts_with_redirect f);
    [by apply resolve_output_slot_zero|].
  apply index_of_Some in Hi as [Hat _].
  apply lookup_lt_Some in Hf.
  pose proof (head_compacted i ts "<" t Hhead Hin Hat) as Hc.
  destruct (can_read o f).
  - rewrite <- (compacted_length i ts) by done.
    by apply resolve_output_slot_zero.
  - simpl. split; [done | by apply head_shaped].
Qed.

(** The command word stays in slot 0.  For a line whose first token is
    neither [<] nor [>], slot 0 of the argument array holds that token
    when [execute_cmd] is done, through every compaction and on every
    path, and the shell process has given no null slot to the [strcmp] of
    its [cd] test or to [chdir].  (A null pointer handed to the syntax
    diagnostic, or to [execvp] by a child of the pipe path, is not what
    this is about.) *)
Theorem command_word_stays_in_slot_zero (st : streams) (ts : list string)
    (t : string) :
  head ts = Some t → t ≠ "<" → t ≠ ">" →
  let r := execute_cmd o st (length ts) (arr ts) in
  r_outcome r ≠ Crashed ∧ r_args r !! 0 = Some (Some t).
Proof.
  intros Hhead Hin Hout r. subst r.
  destruct (index_of "|" ts) as [k|] eqn:Hk.
  - rewrite (execute_cmd_piped o st ts k Hk).
    apply index_of_Some in Hk as [Hat%lookup_lt_Some _].
    rewrite execute_pipe_arr by done.
    destruct (pipe_ok o); simpl;
      (split; [done | rewrite arr_shaped; by apply head_shaped]).
  - apply index_of_None in Hk.
    rewrite execute_cmd_unpiped by (done || by destruct ts).
    by apply resolve_input_slot_zero.
Qed.

End CrashProperties.

(** ** The clean-up loop of [parse_cmd] *)

Section CleanupProperties.

Context (o : os) (st : streams).

Lemma execute_pipe_args (a : list slot) (z : Z) (n : nat) :
  r_args (execute_pipe o st a z n) = a.
Proof. unfold execute_pipe. by repeat case_match. Qed.

(** On a line without [<] and [>] the clean-up loop hands every token to
    [free] exactly once, in order, whenever [execute_cmd] returns, with or
    without a pipe. *)
Theorem cleanup_frees_every_token (input : string) :
  "<" ∉ buf_args (tokenize input) → ">" ∉ buf_args (tokenize input) →
  r_outcome (lr_run (parse_cmd o st input)) = Returned →
  lr_freed (parse_cmd o st input) = Some <$> buf_args (tokenize input).
Proof.
  unfold parse_cmd, buf_num_args. simpl.
  set (ts := buf_args (tokenize input)). intros Hin Hout ->.
  assert (r_args (execute_cmd o st (length ts) (arr ts)) = arr ts) as ->.
  { destruct ts as [|t ts'] eqn:Hts; [done|]. rewrite <- Hts in *.
    assert (ts ≠ []) as Hne by (by rewrite Hts).
    destruct (index_of "|" ts) as [k|] eqn:Hk.
    - rewrite (execute_cmd_piped o st ts k Hk). apply execute_pipe_args.
    - apply index_of_None in Hk. rewrite execute_cmd_plain by done.
      apply run_command_args. }
  by rewrite arr_shaped, take_shaped, take_ge by lia.
Qed.

Lemma first_at_middle (sym : string) (front rest : list string) :
  sym ∉ front → first_at sym (length front) (front ++ sym :: rest).
Proof.
  intros Hfront. split.
  - by apply list_lookup_middle.
  - intros j Hj Hat. rewrite lookup_app_l in Hat by done.
    by apply list_elem_of_lookup_2 in Hat.
Qed.

Lemma lookup_after_middle (front rest : list string) (x y : string) :
  (front ++ x :: y :: rest) !! (length front + 1) = Some y.
Proof.
  rewrite lookup_app_r by lia.
  by replace (length front + 1 - length front) with 1 by lia.
Qed.

Lemma compacted_middle (front rest : list string) (x y : string) :
  compacted (length front) (front ++ x :: y :: rest) = front ++ rest.
Proof.
  unfold compacted. rewrite take_app_length. f_equal.
  rewrite drop_app_add'; [|done]. done.
Qed.

Lemma drop_shaped_middle (front rest : list string) (x : string)
    (tail : list slot) :
  drop (length front + 1) (shaped (front ++ x :: rest) tail) = shaped rest tail.
Proof.
  rewrite drop_shaped by (rewrite length_app; simpl; lia).
  by rewrite drop_app_add'.
Qed.

(** The array after a redirection at the end of the line: the command,
    the sentinel, and the stale operand slot. *)
Lemma trailing_redirection_args (sym f : string) (pre : list string) :
  sym = "<" ∨ sym = ">" → plain pre →
  starts_with_redirect f = false → f ≠ "|" →
  r_args (execute_cmd o st (length (pre ++ [sym; f])) (arr (pre ++ [sym; f])))
  = shaped pre [Some f; None].
Proof.
  intros Hsym (Hpipe & Hin & Hout) Hvalid Hf.
  assert (f ≠ "<" ∧ f ≠ ">") as [Hf1 Hf2].
  { split; intros ->; by vm_compute in Hvalid. }
  assert (shaped (compacted (length pre) (pre ++ [sym; f]))
            (drop (length (pre ++ [sym; f]) - 1) (shaped (pre ++ [sym; f]) []))
          = shaped pre [Some f; None]) as Harr.
  { rewrite compacted_middle, app_nil_r. f_equal.
    replace (length (pre ++ [sym; f]) - 1) with (length pre + 1)
      by (rewrite length_app; simpl; lia).
    apply drop_shaped_middle. }
  assert (length (compacted (length pre) (pre ++ [sym; f])) = length pre) as Hlen
    by (by rewrite compacted_middle, app_nil_r).
  rewrite execute_cmd_unpiped.
  2: { by destruct pre. }
  2: { rewrite not_elem_of_app, !not_elem_of_cons.
       destruct Hsym as [->| ->]; repeat split; try done; apply not_elem_of_nil. }
  unfold resolve_input, resolve_output, freopen.
  rewrite arr_shaped, redirect_input_shaped.
  destruct Hsym as [->| ->].
  - rewrite (redirect_plan_found _ _ _ (length pre) f);
      [|by apply first_at_middle|by apply lookup_after_middle|done].
    rewrite Harr, Hlen.
    destruct (can_read o f); [|done].
    rewrite redirect_output_shaped, redirect_plan_absent by done.
    apply run_command_args.
  - rewrite redirect_plan_absent.
    2: { rewrite not_elem_of_app, !not_elem_of_cons.
         repeat split; try done. apply not_elem_of_nil. }
    rewrite redirect_output_shaped.
    rewrite (redirect_plan_found _ _ _ (length pre) f);
      [|by apply first_at_middle|by apply lookup_after_middle|done].
    rewrite Harr.
    destruct (can_write o f); [|done].
    apply run_command_args.
Qed.

(** A redirection at the end of the line leaks a token.  For a line
    [command ... < f] or [command ... > f] the clean-up loop calls [free]
    on the tokens of the command, then on the null pointer that took the
    place of the symbol, then on the operand: the symbol itself is not
    freed. *)
Theorem trailing_redirection_leaks_the_symbol (input sym f : string)
    (pre : list string) :
  buf_args (tokenize input) = pre ++ [sym; f] →
  sym = "<" ∨ sym = ">" → plain pre →
  starts_with_redirect f = false → f ≠ "|" →
  r_outcome (lr_run (parse_cmd o st input)) = Returned →
  lr_freed (parse_cmd o st input) = (Some <$> pre) ++ [None; Some f] ∧
  Some sym ∉ lr_freed (parse_cmd o st input).
Proof.
  unfold parse_cmd, buf_num_args. simpl.
  intros -> Hsym Hplain Hvalid Hf ->.
  rewrite trailing_redirection_args by done.
  assert (take (length (pre ++ [sym; f])) (shaped pre [Some f; None])
          = (Some <$> pre) ++ [None; Some f]) as ->.
  { unfold shaped. rewrite take_app_ge; rewrite length_fmap, length_app; [|lia].
    f_equal. simpl. by replace (length pre + 2 - length pre) with 2 by lia. }
  split; [done|].
  destruct Hplain as (_ & Hin & Hout).
  rewrite not_elem_of_app, !not_elem_of_cons. split.
  - intros (t & [= <-] & Ht)%list_elem_of_fmap.
    by destruct Hsym as [->| ->].
  - repeat split; [done| |apply not_elem_of_nil].
    intros [= <-]. destruct Hsym as [->| ->]; by vm_compute in Hvalid.
Qed.

End CleanupProperties.

Section DoubleFree.

Context (o : os) (st : streams).

Lemma valid_operand_is_no_symbol (f : string) :
  starts_with_redirect f = false → f ≠ "<" ∧ f ≠ ">".
Proof. intros Hvalid. split; intros ->; by vm_compute in Hvalid. Qed.

(** The array after [command ... < fin > fout]: the command, then a null
    slot, the output operand moved left by the first compaction, the
    sentinel of the first compaction, and the output operand in its
    original slot. *)
Lemma both_redirections_args (fin fout : string) (pre : list string) :
  plain pre →
  starts_with_redirect fin = false → fin ≠ "|" →
  starts_with_redirect fout = false → fout ≠ "|" →
  can_read o fin = true →
  r_args (execute_cmd o st (length (pre ++ ["<"; fin; ">"; fout]))
            (arr (pre ++ ["<"; fin; ">"; fout])))
  = shaped pre [Some fout; None; Some fout; None].
Proof.
  intros (Hpipe & Hin & Hout) Hvin Hfin Hvout Hfout Hread.
  destruct (valid_operand_is_no_symbol _ Hvin) as [Hin1 Hin2].
  destruct (valid_operand_is_no_symbol _ Hvout) as [Hout1 Hout2].
  set (ts := pre ++ ["<"; fin; ">"; fout]).
  assert (compacted (length pre) ts = pre ++ [">"; fout]) as Hc1
    by apply compacted_middle.
  assert (drop (length ts - 1) (shaped ts []) = [Some fout; None]) as Ht1.
  { unfold ts.
    replace (pre ++ ["<"; fin; ">"; fout])
      with ((pre ++ ["<"; fin]) ++ ">" :: [fout]) by (by rewrite <- app_assoc).
    replace (length ((pre ++ ["<"; fin]) ++ [">"; fout]) - 1)
      with (length (pre ++ ["<"; fin]) + 1)
      by (rewrite !length_app; simpl; lia).
    apply drop_shaped_middle. }
  assert (compacted (length pre) (pre ++ [">"; fout]) = pre) as Hc2
    by (by rewrite compacted_middle, app_nil_r).
  assert (drop (length (pre ++ [">"; fout]) - 1)
            (shaped (pre ++ [">"; fout]) [Some fout; None])
          = [Some fout; None; Some fout; None]) as Ht2.
  { replace (length (pre ++ [">"; fout]) - 1) with (length pre + 1)
      by (rewrite length_app; simpl; lia).
    apply drop_shaped_middle. }
  rewrite execute_cmd_unpiped.
  2: { unfold ts. by destruct pre. }
  2: { unfold ts. rewrite not_elem_of_app, !not_elem_of_cons.
       repeat split; try done. apply not_elem_of_nil. }
  unfold resolve_input, resolve_output, freopen.
  rewrite arr_shaped, redirect_input_shaped.
  rewrite (redirect_plan_found _ _ _ (length pre) fin);
    [|by apply first_at_middle|by apply lookup_after_middle|done].
  rewrite Hread, Hc1, Ht1, redirect_output_shaped.
  rewrite (redirect_plan_found _ _ _ (length pre) fout);
    [|by apply first_at_middle|by apply lookup_after_middle|done].
  rewrite Hc2, Ht2.
  destruct (can_write o fout); [|done].
  apply run_command_args.
Qed.

(** A line of the form [command ... < fin > fout] makes the clean-up loop
    free one slot content twice.  The first compaction copies the pointer
    to the output operand two slots to the left and leaves the original in
    place, so [free] is called on the tokens of the command, on a null
    pointer, on the output operand, on a null pointer and on the output
    operand again; the tokens [<], [fin] and [>] are reached by no call. *)
Theorem both_redirections_free_output_twice (input fin fout : string)
    (pre : list string) :
  buf_args (tokenize input) = pre ++ ["<"; fin; ">"; fout] →
  plain pre →
  starts_with_redirect fin = false → fin ≠ "|" →
  starts_with_redirect fout = false → fout ≠ "|" →
  can_read o fin = true →
  r_outcome (lr_run (parse_cmd o st input)) = Returned →
  lr_freed (parse_cmd o st input) =
    (Some <$> pre) ++ [None; Some fout; None; Some fout].
Proof.
  unfold parse_cmd, buf_num_args. simpl.
  intros -> Hplain Hvin Hfin Hvout Hfout Hread ->.
  rewrite both_redirections_args by done.
  unfold shaped. rewrite take_app_ge; rewrite length_fmap, length_app; [|lia].
  f_equal. simpl.
  by replace (length pre + 4 - length pre) with 4 by lia.
Qed.

End DoubleFree.

(** ** The loop of [main] *)

Section MainProperties.

Context (o : os).

Lemma main_cons (st : streams) (input : string) (rest : list string) :
  main o st (input :: rest) =
    match dispatch o st input with
    | Quit => [(s_stdout st, Quit)]
    | Help => (s_stdout st, Help) :: main o st rest
    | Command lr =>
        (s_stdout st, Command lr) ::
        match r_outcome (lr_run lr) with
        | Returned => main o (r_streams (lr_run lr)) rest
        | _ => []
        end
    end.
Proof. reflexivity. Qed.

Lemma dispatch_quit (st : streams) (more : string) :
  dispatch o st (("quit" +:+ newline) +:+ more) = Quit.
Proof.
  unfold dispatch.
  assert (String.prefix ("quit" +:+ newline) (("quit" +:+ newline) +:+ more)
          = true) as ->; [|done].
  by destruct more.
Qed.

(** Nothing is read or run after [quit]: a session ends with the first
    line that begins with [quit] and a newline, whatever lines follow,
    unless an earlier line has already ended the shell. *)
Theorem nothing_runs_after_quit (st : streams) (before after : list string)
    (more : string) :
  main o st (before ++ (("quit" +:+ newline) +:+ more) :: after) =
  main o st (before ++ [("quit" +:+ newline) +:+ more]).
Proof.
  revert st. induction before as [|input before IH]; intros st.
  - simpl app. by rewrite !main_cons, dispatch_quit.
  - rewrite <- !app_comm_cons, !main_cons.
    destruct (dispatch o st input) as [| |lr]; [done | by rewrite IH |].
    destruct (r_outcome (lr_run lr)); [by rewrite IH | done..].
Qed.

End MainProperties.

(** ** Further instances *)

Section FurtherInstances.

Ltac decide_now := apply (bool_decide_unpack _); vm_compute; exact I.
Ltac plain_now := repeat split; decide_now.
Ltac first_now := apply first_at_index_of; vm_compute; reflexivity.

Lemma cd_runs_in_the_shell_witness :
  plain ["/tmp"; "extra"] ∧
  r_trace (execute_cmd os_ok on_tty 3 (arr ["cd"; "/tmp"; "extra"])) =
    [Chdir "/tmp" true].
Proof.
  assert (plain ["/tmp"; "extra"]) as Hplain by plain_now.
  split; [exact Hplain|].
  destruct (cd_runs_in_the_shell os_ok on_tty ["/tmp"; "extra"] Hplain)
    as (_ & _ & _ & Htrace).
  exact Htrace.
Defined.

Lemma fork_failure_ends_the_shell_witness :
  r_outcome (execute_cmd os_no_fork on_tty 2 (arr ["ls"; "-l"])) = Exited 1.
Proof.
  destruct (fork_failure_ends_the_shell os_no_fork on_tty ["ls"; "-l"] "ls")
    as (Hout & _); [plain_now | reflexivity | discriminate | reflexivity |].
  exact Hout.
Defined.

Lemma pipe_failure_ends_the_shell_witness :
  r_trace (execute_cmd os_no_pipe on_tty 3 (arr ["a"; "|"; "b"])) =
    [MkPipe false; Diag "pipe"].
Proof.
  destruct (pipe_failure_ends_the_shell os_no_pipe on_tty ["a"; "|"; "b"])
    as (_ & Htrace); [decide_now | reflexivity |].
  exact Htrace.
Defined.

Lemma pipe_fork_failure_is_ignored_witness :
  r_outcome (execute_cmd os_no_fork on_tty 3 (arr ["a"; "|"; "b"])) = Returned.
Proof.
  destruct (pipe_fork_failure_is_ignored os_no_fork on_tty ["a"; "|"; "b"] 1)
    as (Hout & _); [first_now | reflexivity | reflexivity |].
  exact Hout.
Defined.

Lemma input_redirection_reaches_the_child_witness :
  forks (r_trace (execute_cmd os_ok on_tty 3 (arr ["cat"; "<"; "in.txt"]))) =
    [Child (Streams (File "in.txt") Tty) [] (Some "cat") ["cat"] "execvp"].
Proof.
  destruct (input_redirection_reaches_the_child os_ok on_tty
              ["cat"; "<"; "in.txt"] 1 "in.txt" "cat") as (_ & Hforks);
    [decide_now | decide_now | first_now | reflexivity | reflexivity
    | reflexivity | reflexivity | discriminate |].
  exact Hforks.
Defined.

Lemma output_redirection_reaches_the_child_witness :
  forks (r_trace (execute_cmd os_ok on_tty 3 (arr ["ls"; ">"; "out.txt"]))) =
    [Child (Streams Tty (File "out.txt")) [] (Some "ls") ["ls"] "execvp"].
Proof.
  destruct (output_redirection_reaches_the_child os_ok on_tty
              ["ls"; ">"; "out.txt"] 1 "out.txt" "ls") as (_ & Hforks);
    [decide_now | decide_now | first_now | reflexivity | reflexivity
    | reflexivity | reflexivity | discriminate |].
  exact Hforks.
Defined.

Lemma open_failure_abandons_the_line_witness :
  r_trace (execute_cmd os_read_only on_tty 3 (arr ["ls"; ">"; "out.txt"])) =
    [Freopen "out.txt" "w" Stdout false; Diag "Failed to redirect output"].
Proof.
  destruct (open_failure_abandons_the_line os_read_only on_tty
              ["ls"; ">"; "out.txt"] 1 "out.txt") as (_ & Hout);
    [decide_now | reflexivity | reflexivity |].
  destruct Hout as (_ & Htrace); [first_now | decide_now | reflexivity |].
  exact Htrace.
Defined.

Lemma at_most_one_child_without_pipe_witness :
  length (forks (r_trace (execute_cmd os_ok on_tty 1 (arr ["ls"])))) ≤ 1.
Proof.
  apply (at_most_one_child_without_pipe os_ok on_tty ["ls"]). decide_now.
Defined.


Lemma spawn_path_restores_streams_witness :
  r_streams (execute_cmd os_ok (Streams Tty (File "old")) 1 (arr ["ls"])) =
    Streams Tty Tty.
Proof.
  destruct (spawn_path_restores_streams os_ok (Streams Tty (File "old")) ["ls"])
    as (Hstreams & _); [decide_now | reflexivity | discriminate |].
  exact Hstreams.
Defined.

Lemma command_word_stays_in_slot_zero_witness :
  head ["ls"; "-l"; "<"; "in"] = Some "ls" ∧
  r_args (execute_cmd os_ok on_tty 4 (arr ["ls"; "-l"; "<"; "in"])) !! 0 =
    Some (Some "ls").
Proof.
  split; [reflexivity|].
  destruct (command_word_stays_in_slot_zero os_ok on_tty
              ["ls"; "-l"; "<"; "in"] "ls") as (_ & Hslot);
    [reflexivity | discriminate | discriminate |].
  exact Hslot.
Defined.

Lemma cleanup_frees_every_token_witness :
  lr_freed (parse_cmd os_ok on_tty "ls -l") = [Some "ls"; Some "-l"].
Proof.
  rewrite (cleanup_frees_every_token os_ok on_tty "ls -l");
    [reflexivity | decide_now | decide_now | reflexivity].
Defined.

Lemma trailing_redirection_leaks_the_symbol_witness :
  lr_freed (parse_cmd os_ok on_tty "ls > out") = [Some "ls"; None; Some "out"].
Proof.
  destruct (trailing_redirection_leaks_the_symbol os_ok on_tty
              "ls > out" ">" "out" ["ls"]) as (Hfreed & _);
    [reflexivity | by right | plain_now | reflexivity | discriminate
    | reflexivity |].
  exact Hfreed.
Defined.

Lemma both_redirections_free_output_twice_witness :
  lr_freed (parse_cmd os_ok on_tty "cat < in > out") =
    [Some "cat"; None; Some "out"; None; Some "out"].
Proof.
  rewrite (both_redirections_free_output_twice os_ok on_tty
             "cat < in > out" "in" "out" ["cat"]);
    [reflexivity | reflexivity | plain_now | reflexivity | discriminate
    | reflexivity | discriminate | reflexivity | reflexivity].
Defined.

End FurtherInstances.

(** ** Lines on which no redirection is extracted, or nothing else is left *)

Section EdgeLines.

Context (o : os) (st : streams).

(** When neither scan extracts a redirection, because its symbol is absent
    or because it ended in a syntax diagnostic, a line without a pipe is
    run exactly as tokenized: the one child forked gets every token of the
    line as an argument, the redirection symbols included. *)
Theorem unextracted_line_runs_verbatim (ts : list string) (cmd : string) :
  "|" ∉ ts → head ts = Some cmd → cmd ≠ "cd" →
  (∀ f n a, redirect_input (length ts) (arr ts) ≠ Redirected f n a) →
  (∀ f n a, redirect_output (length ts) (arr ts) ≠ Redirected f n a) →
  let r := execute_cmd o st (length ts) (arr ts) in
  forks (r_trace r) = [Child st [] (Some cmd) ts "execvp"] ∧
  r_args r = arr ts.
Proof.
  intros Hpipe Hhead Hcd Hin Hout r. subst r.
  rewrite execute_cmd_unpiped by (done || by destruct ts).
  pose proof (redirect_plan_no_bad_read "<" ts []) as Hbad1.
  pose proof (redirect_plan_no_bad_read ">" ts []) as Hbad2.
  rewrite <- redirect_input_shaped in Hbad1.
  rewrite <- redirect_output_shaped in Hbad2.
  rewrite <- arr_shaped in Hbad1, Hbad2.
  assert (arr ts !! 0 = Some (Some cmd)) as Hslot
    by (rewrite arr_shaped; by apply head_shaped).
  unfold resolve_input, resolve_output.
  destruct (redirect_input (length ts) (arr ts)) as [|near1|f n a|] eqn:Hi;
    [| |by destruct (Hin f n a)|done];
    (destruct (redirect_output (length ts) (arr ts)) as [|near2|g m b|] eqn:Ho;
      [| |by destruct (Hout g m b)|done]);
    rewrite run_command_args, run_command_forks_tr,
      (run_command_spawn _ _ _ _ cmd), arr_shaped, argv_view_shaped by done;
    done.
Qed.

(** A line that is nothing but a redirection, [< f] or [> f] with a file
    that can be opened, makes [execute_cmd] read the null sentinel as the
    command name: both tokens are extracted, the stream is reopened on the
    file, and the [cd] test then reads slot 0, which is null. *)
Theorem redirection_only_line_reads_null (sym f : string) :
  sym = "<" ∨ sym = ">" →
  starts_with_redirect f = false → f ≠ "|" →
  can_read o f = true → can_write o f = true →
  let r := execute_cmd o st 2 (arr [sym; f]) in
  r_outcome r = Crashed ∧
  forks (r_trace r) = [] ∧
  r_streams r =
    (if String.eqb sym "<" then Streams (File f) (s_stdout st)
     else Streams (s_stdin st) (File f)).
Proof.
  intros Hsym Hvalid Hf Hread Hwrite r. subst r.
  destruct (valid_operand_is_no_symbol _ Hvalid) as [Hf1 Hf2].
  change 2 with (length [sym; f]).
  rewrite execute_cmd_unpiped.
  2: { done. }
  2: { rewrite !not_elem_of_cons.
       destruct Hsym as [->| ->]; repeat split; try done; apply not_elem_of_nil. }
  unfold resolve_input, resolve_output, freopen.
  rewrite arr_shaped, redirect_input_shaped.
  destruct Hsym as [->| ->].
  - rewrite (redirect_plan_found _ _ _ 0 f);
      [|apply (first_at_middle "<" []), not_elem_of_nil|done..].
    rewrite Hread. change (compacted 0 ["<"; f]) with (@nil string).
    by rewrite redirect_output_shaped.
  - rewrite redirect_plan_absent.
    2: { rewrite !not_elem_of_cons. repeat split; try done. apply not_elem_of_nil. }
    rewrite redirect_output_shaped.
    rewrite (redirect_plan_found _ _ _ 0 f);
      [|apply (first_at_middle ">" []), not_elem_of_nil|done..].
    by rewrite Hwrite.
Qed.

End EdgeLines.

Section EdgeInstances.

Lemma unextracted_line_runs_verbatim_witness :
  forks (r_trace (execute_cmd os_ok on_tty 3 (arr ["grep"; ">"; ">>"]))) =
    [Child on_tty [] (Some "grep") ["grep"; ">"; ">>"] "execvp"].
Proof.
  destruct (unextracted_line_runs_verbatim os_ok on_tty ["grep"; ">"; ">>"] "grep")
    as (Hforks & _).
  - apply (bool_decide_unpack _); vm_compute; exact I.
  - reflexivity.
  - discriminate.
  - intros f n a. vm_compute. discriminate.
  - intros f n a. vm_compute. discriminate.
  - exact Hforks.
Defined.

Lemma redirection_only_line_reads_null_witness :
  r_outcome (execute_cmd os_ok on_tty 2 (arr [">"; "out.txt"])) = Crashed.
Proof.
  destruct (redirection_only_line_reads_null os_ok on_tty ">" "out.txt")
    as (Hout & _);
    [by right | reflexivity | discriminate | reflexivity | reflexivity |].
  exact Hout.
Defined.

End EdgeInstances.
